(** * MCP Hub worker: a shallow embedding of the gateway's request-time logic

    The development follows the worker sources module by module:
    cache.ts (Cache Layer), auth.ts (Rate Limiter), registry.ts (Registry
    Store), health.ts (Health Monitor), schema-federation.ts (Schema
    Federator), proxy.ts (Proxy Gateway) and router.ts (Router).

    Conventions.
    - Asynchronous functions are written in a state-and-exception monad over
      a [World]: the Cloudflare KV namespace [MCP_CACHE], the clock read by
      [Date.now()], the network reached by [fetch], and the log of outbound
      calls.  [await] is sequencing; a rejected promise is [Throw].
    - Timestamps are epoch milliseconds in [Z]; where the source stores
      [new Date().toISOString()] the model stores the same instant in [Z].
    - Strings are Rocq strings (bytes); [toLowerCase]/[toUpperCase] act on
      ASCII letters.
    - [JSON.stringify]/[JSON.parse] round trips of plain records are the
      identity, so the KV namespace holds typed documents. *)

From Stdlib Require Import ZArith QArith List String Ascii Bool Lia Sorted.
From stdpp Require Import base option list strings pretty gmap.

Open Scope string_scope.
Open Scope Z_scope.

(** * JavaScript strings *)

Module Js.

Definition lower_ascii (c : ascii) : ascii :=
  let n := nat_of_ascii c in
  if ((65 <=? n)%nat && (n <=? 90)%nat)%bool then ascii_of_nat (n + 32) else c.

Definition upper_ascii (c : ascii) : ascii :=
  let n := nat_of_ascii c in
  if ((97 <=? n)%nat && (n <=? 122)%nat)%bool then ascii_of_nat (n - 32) else c.

Fixpoint map_string (f : ascii -> ascii) (s : string) : string :=
  match s with
  | EmptyString => EmptyString
  | String c s' => String (f c) (map_string f s')
  end.

(** [s.toLowerCase()] and [s.toUpperCase()]. *)
Definition toLowerCase : string -> string := map_string lower_ascii.
Definition toUpperCase : string -> string := map_string upper_ascii.

(** [s.includes(sub)]: [sub] occurs in [s] as a contiguous substring. *)
Fixpoint includes (s sub : string) : bool :=
  String.prefix sub s ||
  match s with
  | EmptyString => false
  | String _ s' => includes s' sub
  end.

(** Truthiness of a string: only the empty string is falsy. *)
Definition truthy (s : string) : bool := negb (String.eqb s "").

(** [xs.includes(x)] on an array of strings. *)
Definition array_includes (xs : list string) (x : string) : bool :=
  existsb (String.eqb x) xs.

(** [xs.some(p)]. *)
Definition some {A} (p : A -> bool) (xs : list A) : bool := existsb p xs.

End Js.

(** * Values thrown and the monad of asynchronous code *)

(** What a [catch] clause can receive: an [Error] object with its [name]
    and [message], or some other thrown value. *)
Inductive Thrown :=
| JsError (name message : string)
| JsOther.

Definition newError (message : string) : Thrown := JsError "Error" message.
Definition TypeError (message : string) : Thrown := JsError "TypeError" message.

(** [error instanceof Error ? error.message : dflt]. *)
Definition message_or (dflt : string) (e : Thrown) : string :=
  match e with
  | JsError _ m => m
  | JsOther => dflt
  end.

Inductive Res (A : Type) :=
| Ok (a : A)
| Throw (e : Thrown).
Arguments Ok {A} a.
Arguments Throw {A} e.

(** A computation over a state [W]: it settles with a value or a thrown
    error, and leaves a new state. *)
Definition M (W A : Type) : Type := W -> Res A * W.

Definition ret {W A} (a : A) : M W A := fun w => (Ok a, w).

Definition bind {W A B} (m : M W A) (k : A -> M W B) : M W B :=
  fun w => match m w with
           | (Ok a, w') => k a w'
           | (Throw e, w') => (Throw e, w')
           end.

Definition throw {W A} (e : Thrown) : M W A := fun w => (Throw e, w).

(** [try { m } catch (e) { h e }]. *)
Definition try_catch {W A} (m : M W A) (h : Thrown -> M W A) : M W A :=
  fun w => match m w with
           | (Ok a, w') => (Ok a, w')
           | (Throw e, w') => h e w'
           end.

Declare Scope js_scope.
Delimit Scope js_scope with js.
Notation "'let*' x ':=' m 'in' k" := (bind m (fun x => k))
  (at level 10, x pattern, m at level 100, k at level 200) : js_scope.
Notation "m ';;' k" := (bind m (fun _ => k))
  (at level 100, k at level 200, right associativity) : js_scope.
Open Scope js_scope.

(** * Data model (types.ts) *)

Inductive HealthStatus := StOnline | StOffline | StDegraded | StUnknown.

Inductive AuthType := AuthNone | AuthApiKey | AuthOAuth.

Record Author := {
  author_name : string;
  author_url : option string;
  author_github : option string;
}.

Record Authentication := {
  auth_type : AuthType;
  auth_required : bool;
}.

Record MCPServer := {
  id : string;
  name : string;
  description : string;
  url : string;
  version : string;
  tags : list string;
  author : Author;
  verified : bool;
  healthStatus : HealthStatus;
  lastChecked : Z;
  capabilities : option (list string);
  authentication : option Authentication;
  createdAt : Z;
  updatedAt : Z;
}.

Record RegistryStats := {
  totalServers : Z;
  onlineServers : Z;
  totalRequests : Z;
}.

Record Registry := {
  reg_version : string;
  reg_lastUpdated : Z;
  servers : list MCPServer;
  stats : RegistryStats;
}.

(** [HealthCheckResult.status] has three values only. *)
Inductive ProbeStatus := Online | Offline | Degraded.

Record HealthCheckResult := {
  serverId : string;
  status : ProbeStatus;
  responseTime : option Z;
  error : option string;
  timestamp : Z;
}.

Record HealthSummary := {
  sum_totalServers : nat;
  sum_onlineServers : nat;
  sum_degradedServers : nat;
  sum_offlineServers : nat;
  sum_lastUpdated : Z;
}.

Record CacheEntry (T : Type) := {
  data : T;
  ce_timestamp : Z;
  ttl : Z;
}.
Arguments data {T} _.
Arguments ce_timestamp {T} _.
Arguments ttl {T} _.

Definition Headers := list (string * string).

Record ProxyLogEntry := {
  log_serverId : string;
  log_targetUrl : string;
  log_method : string;
  log_requestHeaders : Headers;
  log_requestBody : option string;
  log_responseStatus : Z;
  log_responseHeaders : Headers;
  log_responseBody : string;
  log_responseTime : Z;
  log_error : option string;
  log_timestamp : Z;
}.

Record ProxyStats := {
  ps_totalRequests : Z;
  ps_successfulRequests : Z;
  ps_failedRequests : Z;
  ps_averageResponseTime : Q;
  ps_lastRequest : Z;
}.

(** * The world of one worker invocation *)

(** The documents the worker keeps in [MCP_CACHE], by the shape that is
    written under each key family. *)
Inductive KVValue (T : Type) :=
| VCacheEntry (e : CacheEntry T)                      (* cache.ts *)
| VRateLimit (requests : list Z) (windowStart : Z)    (* rate_limit:{ip} *)
| VHealthResult (r : HealthCheckResult)               (* health:{id} *)
| VHealthSummary (s : HealthSummary)                  (* health:summary *)
| VProxyLog (l : ProxyLogEntry)                       (* proxy_log:... *)
| VProxyStats (s : ProxyStats).                       (* proxy_stats:{id} *)
Arguments VCacheEntry {T} e.
Arguments VRateLimit {T} requests windowStart.
Arguments VHealthResult {T} r.
Arguments VHealthSummary {T} s.
Arguments VProxyLog {T} l.
Arguments VProxyStats {T} s.

(** A stored key: its document and the instant at which the store's own
    expiry ([expirationTtl]) removes it. *)
Record KVEntry (T : Type) := {
  kv_value : KVValue T;
  kv_expires : Z;
}.
Arguments kv_value {T} _.
Arguments kv_expires {T} _.

(** An outbound request as handed to [fetch]. *)
Record FetchRequest := {
  req_url : string;
  req_method : string;
  req_headers : Headers;
  req_body : option string;
}.

(** The outbound calls of the worker, by call site. *)
Inductive Outbound :=
| RegistryFetch (u : string)          (* registry.ts, fetchRegistryFromGitHub *)
| HealthProbe (u : string)            (* health.ts, checkServerHealth *)
| ProxyForward (r : FetchRequest).    (* proxy.ts, proxyRequest *)

(** The validated part of the registry document: what
    [fetchRegistryFromGitHub] inspects before the cast to [Registry]. *)
Inductive ServersField :=
| ServersAbsent                         (* no [servers] key, or null *)
| ServersNotArray (truthy : bool)       (* some value that is not an array *)
| ServersArray (l : list MCPServer).

Record RegistryDoc := {
  doc_version : option string;          (* [None]: no [version] key *)
  doc_servers : ServersField;
  doc_lastUpdated : Z;
  doc_stats : RegistryStats;
}.

(** What [response.json()] settles with. *)
Inductive JsonBody :=
| JsonInvalid                   (* the body is not JSON: the promise rejects *)
| JsonNull                      (* the JSON value null *)
| JsonDoc (d : RegistryDoc).

Record HttpResponse := {
  resp_status : Z;
  resp_statusText : string;
  resp_headers : Headers;
  resp_text : option string;    (* [response.text()]; [None]: the read fails *)
  resp_json : JsonBody;         (* [response.json()] *)
}.

(** [response.ok]. *)
Definition resp_ok (r : HttpResponse) : bool :=
  (200 <=? resp_status r) && (resp_status r <=? 299).

(** How the network answers one call, and after how many milliseconds. *)
Inductive FetchOutcome :=
| NetFail (e : Thrown) (elapsed : Z)
| NetResponse (r : HttpResponse) (elapsed : Z).

Record World (T : Type) := {
  now : Z;                                   (* Date.now() *)
  kv : gmap string (KVEntry T);              (* env.MCP_CACHE *)
  kv_faults : nat -> bool;                   (* which KV operations raise *)
  kv_ops : nat;                              (* KV operations so far *)
  net : nat -> Outbound -> FetchOutcome;     (* the network *)
  outbound : list Outbound;                  (* outbound calls so far *)
  random : nat -> string;                    (* Math.random() suffixes *)
}.
Arguments now {T} _.
Arguments kv {T} _.
Arguments kv_faults {T} _.
Arguments kv_ops {T} _.
Arguments net {T} _.
Arguments outbound {T} _.
Arguments random {T} _.

Section WorldOps.
Context {T : Type}.
Local Abbreviation W := (World T).

Definition set_kv (m : gmap string (KVEntry T)) (w : W) : W :=
  {| now := now w; kv := m; kv_faults := kv_faults w; kv_ops := kv_ops w;
     net := net w; outbound := outbound w; random := random w |}.

Definition tick_kv (w : W) : W :=
  {| now := now w; kv := kv w; kv_faults := kv_faults w; kv_ops := S (kv_ops w);
     net := net w; outbound := outbound w; random := random w |}.

Definition set_now (t : Z) (w : W) : W :=
  {| now := t; kv := kv w; kv_faults := kv_faults w; kv_ops := kv_ops w;
     net := net w; outbound := outbound w; random := random w |}.

Definition log_outbound (o : Outbound) (w : W) : W :=
  {| now := now w; kv := kv w; kv_faults := kv_faults w; kv_ops := kv_ops w;
     net := net w; outbound := (outbound w ++ [o])%list; random := random w |}.

(** [Date.now()]. *)
Definition Date_now : M W Z := fun w => (Ok (now w), w).

(** Every KV operation first meets the store: it raises when the store is
    at fault for this operation. *)
Definition kv_op {A} (body : M W A) : M W A :=
  fun w =>
    if kv_faults w (kv_ops w)
    then (Throw (newError "KV operation failed"), tick_kv w)
    else body (tick_kv w).

(** The document visible under [key] at the current instant. *)
Definition kv_visible (w : W) (key : string) : option (KVValue T) :=
  match kv w !! key with
  | Some e => if now w <? kv_expires e then Some (kv_value e) else None
  | None => None
  end.

(** [env.MCP_CACHE.get(key, 'json')]. *)
Definition KV_get (key : string) : M W (option (KVValue T)) :=
  kv_op (fun w => (Ok (kv_visible w key), w)).

(** [env.MCP_CACHE.put(key, JSON.stringify(v), { expirationTtl })]. *)
Definition KV_put (key : string) (v : KVValue T) (expirationTtl : Z) : M W unit :=
  kv_op (fun w =>
    (Ok tt,
     set_kv (<[key := {| kv_value := v;
                         kv_expires := now w + expirationTtl * 1000 |}]> (kv w)) w)).

(** [env.MCP_CACHE.delete(key)]. *)
Definition KV_delete (key : string) : M W unit :=
  kv_op (fun w => (Ok tt, set_kv (delete key (kv w)) w)).

(** * Cache layer (cache.ts) *)

Definition DEFAULT_TTL : Z := 300.

(** [getCachedData]: [None] is the [null] (or [undefined]) the callers
    test with [if (cached)]. *)
Definition getCachedData (key : string) : M W (option T) :=
  try_catch
    (let* cached := KV_get key in
     match cached with
     | None => ret None
     | Some (VCacheEntry c) =>
         let* now := Date_now in
         if ce_timestamp c + ttl c * 1000 <? now
         then (KV_delete key ;; ret None)
         else ret (Some (data c))
     | Some _ =>
         (* a document without [timestamp]/[ttl]/[data]: the comparison with
            NaN is false and [cached.data] is undefined *)
         ret None
     end)
    (fun _ => ret None).

Definition setCachedData (key : string) (d : T) (ttl : Z) : M W bool :=
  try_catch
    (let* now := Date_now in
     let cacheEntry := {| data := d; ce_timestamp := now; ttl := ttl |} in
     KV_put key (VCacheEntry cacheEntry) (ttl + 60) ;;
     ret true)
    (fun _ => ret false).

Definition deleteCachedData (key : string) : M W bool :=
  try_catch (KV_delete key ;; ret true) (fun _ => ret false).

End WorldOps.

(** * Rate limiter (auth.ts) *)

Definition RATE_LIMIT_WINDOW : Z := 60 * 1000.
Definition RATE_LIMIT_MAX_REQUESTS : Z := 100.

Record RateLimitResult := {
  allowed : bool;
  limit : Z;
  remaining : Z;
  reset : Z;
}.

(** [Math.ceil(a / b)] for positive [b]. *)
Definition ceil_div (a b : Z) : Z := (a + b - 1) / b.

Section RateLimiter.
Context {T : Type}.
Local Abbreviation W := (World T).

Definition rate_limit_key (ip : string) : string := "rate_limit:" ++ ip.

(** The fail-open answer of the [catch] clause (and of a missing ip). *)
Definition fail_open (now : Z) : RateLimitResult :=
  {| allowed := true;
     limit := RATE_LIMIT_MAX_REQUESTS;
     remaining := RATE_LIMIT_MAX_REQUESTS - 1;
     reset := now + RATE_LIMIT_WINDOW |}.

(** The body of the [try] block of [checkRateLimit]. *)
Definition checkRateLimit_try (rateLimitKey : string) (now : Z)
  : M W RateLimitResult :=
  let windowStart := now - RATE_LIMIT_WINDOW in
  let* rateLimitData := KV_get rateLimitKey in
  let* requests :=
    match rateLimitData with
    | None => ret []
    | Some (VRateLimit reqs _) =>
        ret (List.filter (fun ts => windowStart <? ts) reqs)
    | Some _ =>
        (* [rateLimitData.requests] is undefined: [.filter] raises *)
        throw (TypeError "Cannot read properties of undefined")
    end in
  if RATE_LIMIT_MAX_REQUESTS <=? Z.of_nat (length requests) then
    match requests with
    | oldestRequest :: _ =>
        ret {| allowed := false;
               limit := RATE_LIMIT_MAX_REQUESTS;
               remaining := 0;
               reset := oldestRequest + RATE_LIMIT_WINDOW |}
    | [] => throw (TypeError "Cannot read properties of undefined")
    end
  else
    let requests := (requests ++ [now])%list in
    KV_put rateLimitKey (VRateLimit requests now)
           (ceil_div RATE_LIMIT_WINDOW 1000 + 60) ;;
    ret {| allowed := true;
           limit := RATE_LIMIT_MAX_REQUESTS;
           remaining := RATE_LIMIT_MAX_REQUESTS - Z.of_nat (length requests);
           reset := now + RATE_LIMIT_WINDOW |}.

(** [checkRateLimit(ctx)]; [ip] is [ctx.ip], an optional string. *)
Definition checkRateLimit (ip : option string) : M W RateLimitResult :=
  match ip with
  | Some ip =>
      if Js.truthy ip then
        let* now := Date_now in
        try_catch (checkRateLimit_try (rate_limit_key ip) now)
                  (fun _ => ret (fail_open now))
      else
        let* now := Date_now in ret (fail_open now)
  | None =>
      let* now := Date_now in ret (fail_open now)
  end.

(** A client calling at the instants [times], one check per instant. *)
Fixpoint check_sequence (ip : option string) (times : list Z) (w : W)
  : list (Res RateLimitResult) * W :=
  match times with
  | [] => ([], w)
  | t :: ts =>
      let '(r, w') := checkRateLimit ip (set_now t w) in
      let '(rs, w'') := check_sequence ip ts w' in
      (r :: rs, w'')
  end.

End RateLimiter.

(** * The network *)

Section Network.
Context {T : Type}.
Local Abbreviation W := (World T).

Definition outcome_elapsed (o : FetchOutcome) : Z :=
  match o with
  | NetFail _ elapsed => elapsed
  | NetResponse _ elapsed => elapsed
  end.

(** [await fetch(...)] without a signal: the call is logged, the clock
    moves by the time the network takes, and the promise settles. *)
Definition fetch (o : Outbound) : M W HttpResponse :=
  fun w =>
    let w1 := log_outbound o w in
    match net w (length (outbound w)) o with
    | NetFail e elapsed => (Throw e, set_now (now w + elapsed) w1)
    | NetResponse r elapsed => (Ok r, set_now (now w + elapsed) w1)
    end.

Definition AbortError : Thrown := JsError "AbortError" "The operation was aborted".

(** [await fetch(..., { signal: controller.signal })] under
    [setTimeout(() => controller.abort(), timeout)]: a call the network has
    not settled when the timer fires rejects with an AbortError. *)
Definition fetch_with_timeout (timeout : Z) (o : Outbound) : M W HttpResponse :=
  fun w =>
    let w1 := log_outbound o w in
    let out := net w (length (outbound w)) o in
    if timeout <=? outcome_elapsed out
    then (Throw AbortError, set_now (now w + timeout) w1)
    else match out with
         | NetFail e elapsed => (Throw e, set_now (now w + elapsed) w1)
         | NetResponse r elapsed => (Ok r, set_now (now w + elapsed) w1)
         end.

(** [await response.text()]. *)
Definition response_text (r : HttpResponse) : M W string :=
  match resp_text r with
  | Some s => ret s
  | None => throw (TypeError "Failed to read response body")
  end.

(** [Promise.all(ms)]: the computations start together at the current
    instant and all run; the result is the list of their values, or the
    first rejection.  The clock ends at the latest settlement. *)
Definition all_settle {A} (r : Res A) (rs : Res (list A)) : Res (list A) :=
  match r, rs with
  | Ok a, Ok l => Ok (a :: l)
  | Throw e, _ => Throw e
  | Ok _, Throw e => Throw e
  end.

Fixpoint Promise_all_from {A} (t0 : Z) (ms : list (M W A)) : M W (list A) :=
  fun w =>
    match ms with
    | [] => (Ok [], set_now t0 w)
    | m :: rest =>
        let '(r, w1) := m (set_now t0 w) in
        let '(rs, w2) := Promise_all_from t0 rest w1 in
        (all_settle r rs, set_now (Z.max (now w1) (now w2)) w2)
    end.

Definition Promise_all {A} (ms : list (M W A)) : M W (list A) :=
  fun w => Promise_all_from (now w) ms w.

End Network.

(** * Registry store (registry.ts) *)

Abbreviation RWorld := (World Registry).

Definition REGISTRY_CACHE_KEY : string := "registry".
Definition REGISTRY_CACHE_TTL : Z := 300.
Definition GITHUB_REGISTRY_URL : string :=
  "https://raw.githubusercontent.com/YOUR_USERNAME/mcp-hub/main/dashboard/public/servers.json".

(** [!registry.version || !registry.servers || !Array.isArray(registry.servers)]. *)
Definition invalid_registry_format (d : RegistryDoc) : bool :=
  negb (match doc_version d with Some v => Js.truthy v | None => false end)
  || negb (match doc_servers d with
           | ServersAbsent => false
           | ServersNotArray truthy => truthy
           | ServersArray _ => true
           end)
  || negb (match doc_servers d with ServersArray _ => true | _ => false end).

Definition fetchRegistryFromGitHub : M RWorld Registry :=
  let* response := fetch (RegistryFetch GITHUB_REGISTRY_URL) in
  if negb (resp_ok response) then
    throw (newError ("Failed to fetch registry: " ++ pretty (resp_status response)))
  else
    match resp_json response with
    | JsonInvalid => throw (JsError "SyntaxError" "Unexpected token in JSON")
    | JsonNull => throw (TypeError "Cannot read properties of null")
    | JsonDoc registry =>
        if invalid_registry_format registry then
          throw (newError "Invalid registry format")
        else
          match doc_version registry, doc_servers registry with
          | Some v, ServersArray l =>
              ret {| reg_version := v;
                     reg_lastUpdated := doc_lastUpdated registry;
                     servers := l;
                     stats := doc_stats registry |}
          | _, _ => throw (newError "Invalid registry format")
          end
    end.

Definition createFallbackRegistry (now : Z) : Registry :=
  {| reg_version := "1.0.0";
     reg_lastUpdated := now;
     servers :=
       [ {| id := "example-mcp";
            name := "Example MCP Server";
            description := "A sample MCP server for demonstration purposes";
            url := "https://example.com/mcp";
            version := "1.0.0";
            tags := ["example"; "demo"];
            author := {| author_name := "MCP Hub Team";
                         author_url := None;
                         author_github := Some "mcp-hub" |};
            verified := true;
            healthStatus := StUnknown;
            lastChecked := now;
            capabilities := Some ["query"; "chat"; "tools"];
            authentication := Some {| auth_type := AuthNone; auth_required := false |};
            createdAt := now;
            updatedAt := now |} ];
     stats := {| totalServers := 1; onlineServers := 0; totalRequests := 0 |} |}.

Definition getRegistry : M RWorld Registry :=
  try_catch
    (let* cached := getCachedData REGISTRY_CACHE_KEY in
     match cached with
     | Some r => ret r
     | None =>
         let* registry := fetchRegistryFromGitHub in
         setCachedData REGISTRY_CACHE_KEY registry REGISTRY_CACHE_TTL ;;
         ret registry
     end)
    (fun _ => let* now := Date_now in ret (createFallbackRegistry now)).

Definition getServer (sid : string) : M RWorld (option MCPServer) :=
  try_catch
    (let* registry := getRegistry in
     ret (List.find (fun server => String.eqb (id server) sid) (servers registry)))
    (fun _ => ret None).

(** The text filter shared by [searchServers] and the router. *)
Definition matches_query (searchTerm : string) (server : MCPServer) : bool :=
  Js.includes (Js.toLowerCase (name server)) searchTerm
  || Js.includes (Js.toLowerCase (description server)) searchTerm
  || Js.some (fun tag => Js.includes (Js.toLowerCase tag) searchTerm) (tags server).

Definition has_any_tag (requested : list string) (server : MCPServer) : bool :=
  Js.some (fun tag => Js.array_includes (tags server) tag) requested.

(** [searchServers(ctx, query?, tags?, verified?)]. *)
Definition searchServers (query : option string) (tags : option (list string))
    (verified_filter : option bool) : M RWorld (list MCPServer) :=
  try_catch
    (let* registry := getRegistry in
     let servers := servers registry in
     let servers :=
       match query with
       | Some q =>
           if Js.truthy q
           then List.filter (matches_query (Js.toLowerCase q)) servers
           else servers
       | None => servers
       end in
     let servers :=
       match tags with
       | Some tags =>
           if (0 <? length tags)%nat
           then List.filter (has_any_tag tags) servers
           else servers
       | None => servers
       end in
     let servers :=
       match verified_filter with
       | Some v => List.filter (fun server => Bool.eqb (verified server) v) servers
       | None => servers
       end in
     ret servers)
    (fun _ => ret []).

(** * Health monitor (health.ts) *)

Definition HEALTH_CHECK_TIMEOUT : Z := 30000.
Definition HEALTH_CHECK_CACHE_TTL : Z := 300.
Definition MAX_CONCURRENT_CHECKS : nat := 10.

(** The classification of a settled HEAD request. *)
Definition classify_response (response : HttpResponse) (responseTime : Z)
  : ProbeStatus :=
  if resp_ok response then
    (if 10000 <? responseTime then Degraded else Online)
  else if 500 <=? resp_status response then Degraded
  else Offline.

(** The classification of a rejected HEAD request: status and message. *)
Definition classify_error (error : Thrown) : ProbeStatus * string :=
  match error with
  | JsError name errorMessage =>
      if String.eqb name "AbortError" || Js.includes errorMessage "timeout"
      then (Degraded, "Request timeout")
      else if Js.includes errorMessage "fetch" || Js.includes errorMessage "network"
      then (Offline, "Network error")
      else (Offline, errorMessage)
  | JsOther => (Offline, "Unknown error")
  end.

Definition checkServerHealth (server : MCPServer) : M RWorld HealthCheckResult :=
  let* startTime := Date_now in
  try_catch
    (let* response := fetch_with_timeout HEALTH_CHECK_TIMEOUT (HealthProbe (url server)) in
     let* endTime := Date_now in
     let responseTime := endTime - startTime in
     let status := classify_response response responseTime in
     let* ts := Date_now in
     ret {| serverId := id server;
            status := status;
            responseTime := Some responseTime;
            error := None;
            timestamp := ts |})
    (fun error =>
       let* endTime := Date_now in
       let responseTime := endTime - startTime in
       let '(status, errorMessage) := classify_error error in
       let* ts := Date_now in
       ret {| serverId := id server;
              status := status;
              responseTime := Some responseTime;
              error := Some errorMessage;
              timestamp := ts |}).

Definition is_status (s : ProbeStatus) (r : HealthCheckResult) : bool :=
  match s, status r with
  | Online, Online | Offline, Offline | Degraded, Degraded => true
  | _, _ => false
  end.

Definition health_key (sid : string) : string := "health:" ++ sid.

Definition make_summary (results : list HealthCheckResult) (now : Z) : HealthSummary :=
  {| sum_totalServers := length results;
     sum_onlineServers := length (List.filter (is_status Online) results);
     sum_degradedServers := length (List.filter (is_status Degraded) results);
     sum_offlineServers := length (List.filter (is_status Offline) results);
     sum_lastUpdated := now |}.

(** [storeHealthCheckResults]: every [put] is started before any is
    awaited, so each one runs whether or not another one fails. *)
Definition storeHealthCheckResults (results : list HealthCheckResult) : M RWorld unit :=
  try_catch
    (let storePromises :=
       map (fun result =>
              KV_put (health_key (serverId result)) (VHealthResult result)
                     (HEALTH_CHECK_CACHE_TTL * 2))
           results in
     let* now := Date_now in
     let summary := make_summary results now in
     let storePromises :=
       (storePromises ++
        [KV_put "health:summary" (VHealthSummary summary)
                (HEALTH_CHECK_CACHE_TTL * 2)])%list in
     Promise_all storePromises ;;
     ret tt)
    (fun _ => ret tt).

Section Sweep.
(** The sweep is written over the probe it runs, so that what it does with
    a probe that rejects can be stated; the worker runs it with
    [checkServerHealth]. *)
Variable probe : MCPServer -> M RWorld HealthCheckResult.

(** [checkServerHealth(server).catch(error => ({ ... }))]. *)
Definition probe_or_offline (server : MCPServer) : M RWorld HealthCheckResult :=
  try_catch (probe server)
    (fun error =>
       let* ts := Date_now in
       ret {| serverId := id server;
              status := Offline;
              responseTime := None;
              error := Some (message_or "Health check failed" error);
              timestamp := ts |}).

(** [servers.slice(i, i + n)] for indices within [nat]. *)
Definition slice {A} (i j : nat) (l : list A) : list A :=
  firstn (j - i) (skipn i l).

(** The [for (let i = 0; i < servers.length; i += MAX_CONCURRENT_CHECKS)]
    loop, from index [i]; it yields the [batchResults] of each iteration in
    order.  [fuel] bounds the iterations. *)
Fixpoint sweep_loop (fuel : nat) (i : nat) (servers : list MCPServer)
  : M RWorld (list (list HealthCheckResult)) :=
  match fuel with
  | O => ret []
  | S fuel' =>
      if (i <? length servers)%nat then
        let batch := slice i (i + MAX_CONCURRENT_CHECKS) servers in
        let batchPromises := map probe_or_offline batch in
        let* batchResults := Promise_all batchPromises in
        let* later := sweep_loop fuel' (i + MAX_CONCURRENT_CHECKS) servers in
        ret (batchResults :: later)
      else ret []
  end.

(** The batches of one sweep: every iteration advances [i] by ten, so
    [length servers] iterations always suffice. *)
Definition sweep_batches (servers : list MCPServer)
  : M RWorld (list (list HealthCheckResult)) :=
  sweep_loop (length servers) 0 servers.

Definition checkAllServersHealth_with : M RWorld (list HealthCheckResult) :=
  try_catch
    (let* registry := getRegistry in
     let servers := servers registry in
     let* batches := sweep_batches servers in
     let results := concat batches in
     storeHealthCheckResults results ;;
     ret results)
    (fun error => throw error).

End Sweep.

Definition checkAllServersHealth : M RWorld (list HealthCheckResult) :=
  checkAllServersHealth_with checkServerHealth.

(** * Schema federator (schema-federation.ts): the merge *)

Record ToolDefinition := {
  tool_name : string;
  tool_description : string;
  tool_inputSchema : option string;
  tool_outputSchema : option string;
  tool_namespace : option string;
}.

Record ResourceDefinition := {
  res_name : string;
  res_description : string;
  res_uri : string;
  res_mimeType : option string;
  res_namespace : option string;
}.

Record PromptDefinition := {
  prompt_name : string;
  prompt_description : string;
  prompt_arguments : option (list string);
  prompt_namespace : option string;
}.

Record MCPSchema := {
  schema_serverId : string;
  schema_serverName : string;
  schema_version : string;
  schema_namespace : option string;
  schema_tools : option (list ToolDefinition);
  schema_resources : option (list ResourceDefinition);
  schema_prompts : option (list PromptDefinition);
  schema_capabilities : option (list string);
  schema_lastFetched : Z;
}.

Inductive ConflictType := CTool | CResource | CPrompt.
Inductive Resolution := ByNamespace | ByRename | ByMerge.

Record SchemaConflict := {
  conflict_type : ConflictType;
  conflict_name : string;
  conflict_servers : list string;
  conflict_resolution : Resolution;
}.

Record FederatedSchema := {
  fed_version : string;
  fed_servers : list string;
  fed_tools : list ToolDefinition;
  fed_resources : list ResourceDefinition;
  fed_prompts : list PromptDefinition;
  fed_capabilities : list string;
  fed_namespaces : list string;
  fed_conflicts : list SchemaConflict;
  fed_lastUpdated : Z;
}.

(** [x || dflt] for an optional string. *)
Definition or_default (x : option string) (dflt : string) : string :=
  match x with
  | Some s => if Js.truthy s then s else dflt
  | None => dflt
  end.

(** [`${namespace}:${name}`]. *)
Definition namespaced (namespace name : string) : string :=
  namespace ++ ":" ++ name.

(** The three resolvers of the source are one algorithm written three
    times; it is written once here, over the entry type. *)
Section ResolveConflicts.
Context {A : Type}.
Variable kind : ConflictType.
Variable get_name : A -> string.
Variable get_namespace : A -> option string.
Variable set_name : string -> A -> A.

(** A [Map<string, A[]>] in insertion order. *)
Definition NameMap := list (string * list A).

(** [if (!map.has(key)) map.set(key, []); map.get(key).push(x)]. *)
Fixpoint map_push (key : string) (x : A) (m : NameMap) : NameMap :=
  match m with
  | [] => [(key, [x])]
  | (k, l) :: rest =>
      if String.eqb k key then (k, (l ++ [x])%list) :: rest
      else (k, l) :: map_push key x rest
  end.

(** Group entries by name. *)
Definition group_by_name (items : list A) : NameMap :=
  fold_left (fun m item => map_push (get_name item) item m) items [].

Definition namespace_or_unknown (item : A) : string :=
  or_default (get_namespace item) "unknown".

Definition rename_item (item : A) : A :=
  set_name (namespaced (namespace_or_unknown item) (get_name item)) item.

(** One iteration of [for (const [name, list] of map.entries())]. *)
Definition resolve_entry (acc : list A * list SchemaConflict)
    (entry : string * list A) : list A * list SchemaConflict :=
  let '(resolved, conflicts) := acc in
  let '(name, itemList) := entry in
  if (length itemList =? 1)%nat then
    match itemList with
    | item :: _ => ((resolved ++ [item])%list, conflicts)
    | [] => (resolved, conflicts)
    end
  else
    let servers := map namespace_or_unknown itemList in
    ((resolved ++ map rename_item itemList)%list,
     (conflicts ++ [ {| conflict_type := kind;
                        conflict_name := name;
                        conflict_servers := servers;
                        conflict_resolution := ByNamespace |} ])%list).

Definition resolveConflicts (items : list A) : list A * list SchemaConflict :=
  fold_left resolve_entry (group_by_name items) ([], []).

End ResolveConflicts.

Definition rename_tool (n : string) (t : ToolDefinition) : ToolDefinition :=
  {| tool_name := n;
     tool_description := tool_description t;
     tool_inputSchema := tool_inputSchema t;
     tool_outputSchema := tool_outputSchema t;
     tool_namespace := tool_namespace t |}.

Definition rename_resource (n : string) (r : ResourceDefinition) : ResourceDefinition :=
  {| res_name := n;
     res_description := res_description r;
     res_uri := res_uri r;
     res_mimeType := res_mimeType r;
     res_namespace := res_namespace r |}.

Definition rename_prompt (n : string) (p : PromptDefinition) : PromptDefinition :=
  {| prompt_name := n;
     prompt_description := prompt_description p;
     prompt_arguments := prompt_arguments p;
     prompt_namespace := prompt_namespace p |}.

Definition resolveToolConflicts :=
  resolveConflicts CTool tool_name tool_namespace rename_tool.
Definition resolveResourceConflicts :=
  resolveConflicts CResource res_name res_namespace rename_resource.
Definition resolvePromptConflicts :=
  resolveConflicts CPrompt prompt_name prompt_namespace rename_prompt.

(** [set.add(x)] on an insertion-ordered [Set<string>]. *)
Definition set_add (x : string) (s : list string) : list string :=
  if Js.array_includes s x then s else (s ++ [x])%list.

(** [xs || []]. *)
Definition or_empty {A} (xs : option (list A)) : list A :=
  match xs with Some l => l | None => [] end.

(** [mergeSchemas]; the single loop over the schemas that fills the five
    collections is written as one traversal per collection. *)
Definition mergeSchemas (schemas : list MCPSchema) (now : Z) : FederatedSchema :=
  let allTools := flat_map (fun s => or_empty (schema_tools s)) schemas in
  let allResources := flat_map (fun s => or_empty (schema_resources s)) schemas in
  let allPrompts := flat_map (fun s => or_empty (schema_prompts s)) schemas in
  let allCapabilities :=
    fold_left (fun acc s => fold_left (fun acc cap => set_add cap acc)
                                      (or_empty (schema_capabilities s)) acc)
              schemas [] in
  let allNamespaces :=
    fold_left (fun acc s =>
                 match schema_namespace s with
                 | Some ns => if Js.truthy ns then set_add ns acc else acc
                 | None => acc
                 end)
              schemas [] in
  let '(resolvedTools, toolConflicts) := resolveToolConflicts allTools in
  let '(resolvedResources, resourceConflicts) := resolveResourceConflicts allResources in
  let '(resolvedPrompts, promptConflicts) := resolvePromptConflicts allPrompts in
  let conflicts := (toolConflicts ++ resourceConflicts ++ promptConflicts)%list in
  {| fed_version := "1.0.0";
     fed_servers := map schema_serverId schemas;
     fed_tools := resolvedTools;
     fed_resources := resolvedResources;
     fed_prompts := resolvedPrompts;
     fed_capabilities := allCapabilities;
     fed_namespaces := allNamespaces;
     fed_conflicts := conflicts;
     fed_lastUpdated := now |}.

(** * JavaScript objects used as string maps *)

(** A [Record<string, string>]: keys are unique and keep insertion order. *)
Fixpoint obj_get (k : string) (o : Headers) : option string :=
  match o with
  | [] => None
  | (k', v) :: rest => if String.eqb k' k then Some v else obj_get k rest
  end.

(** [o[k] = v]. *)
Fixpoint obj_set (k v : string) (o : Headers) : Headers :=
  match o with
  | [] => [(k, v)]
  | (k', v') :: rest =>
      if String.eqb k' k then (k', v) :: rest else (k', v') :: obj_set k v rest
  end.

(** [delete o[k]]. *)
Definition obj_delete (k : string) (o : Headers) : Headers :=
  List.filter (fun kv => negb (String.eqb (fst kv) k)) o.

(** [{ ...a, ...b }]. *)
Definition obj_spread (a b : Headers) : Headers :=
  fold_left (fun o kv => obj_set (fst kv) (snd kv) o) b a.

(** [a || b] on optional strings. *)
Definition js_or (a b : option string) : option string :=
  match a with
  | Some s => if Js.truthy s then Some s else b
  | None => b
  end.

Definition opt_truthy (a : option string) : bool :=
  match a with
  | Some s => Js.truthy s
  | None => false
  end.

(** * Proxy gateway (proxy.ts) *)

Definition PROXY_TIMEOUT : Z := 30000.
Definition MAX_BODY_SIZE : Z := 10 * 1024 * 1024.
Definition ALLOWED_METHODS : list string :=
  ["GET"; "POST"; "PUT"; "PATCH"; "DELETE"; "HEAD"; "OPTIONS"].

Record ProxyResponse := {
  success : bool;
  proxy_error : option string;
  proxy_status : Z;
  proxy_statusText : string;
  proxy_headers : Headers;
  proxy_body : string;
  proxy_responseTime : Z;
}.

(** The [body?: any] of a proxy request: a string, or another JSON value
    given by its truthiness and its [JSON.stringify] text. *)
Inductive JsBody :=
| BodyString (s : string)
| BodyValue (truthy : bool) (json : string).

Definition body_truthy (b : option JsBody) : bool :=
  match b with
  | Some (BodyString s) => Js.truthy s
  | Some (BodyValue truthy _) => truthy
  | None => false
  end.

Definition body_text (b : JsBody) : string :=
  match b with
  | BodyString s => s
  | BodyValue _ json => json
  end.

(** A parsed URL, as far as the gateway reads it. *)
Record URL := {
  href : string;
  origin : string;
}.

Definition allowedHeaders : list string :=
  ["accept"; "accept-encoding"; "accept-language"; "cache-control";
   "content-type"; "if-match"; "if-modified-since"; "if-none-match";
   "if-unmodified-since"; "range"].

Definition hopByHopHeaders : list string :=
  ["connection"; "keep-alive"; "proxy-authenticate"; "proxy-authorization";
   "te"; "trailers"; "transfer-encoding"; "upgrade"].

Definition prepareProxyHeaders (originalHeaders : Headers) (server : MCPServer)
  : Headers :=
  let headers := [("User-Agent", "MCP-Hub-Proxy/1.0");
                  ("Accept", "application/json");
                  ("Content-Type", "application/json")] in
  let headers :=
    fold_left (fun headers kv =>
                 let lowerKey := Js.toLowerCase (fst kv) in
                 if Js.array_includes allowedHeaders lowerKey
                 then obj_set (fst kv) (snd kv) headers
                 else headers)
              originalHeaders headers in
  let pass_authorization headers :=
    let given := js_or (obj_get "authorization" originalHeaders)
                       (obj_get "Authorization" originalHeaders) in
    match given with
    | Some v => if Js.truthy v then obj_set "Authorization" v headers else headers
    | None => headers
    end in
  let headers :=
    match authentication server with
    | Some a =>
        if auth_required a then
          match auth_type a with
          | AuthApiKey => pass_authorization headers
          | AuthOAuth => pass_authorization headers
          | AuthNone => headers
          end
        else headers
    | None => headers
    end in
  fold_left (fun headers header =>
               obj_delete (Js.toLowerCase header) (obj_delete header headers))
            hopByHopHeaders headers.

(** The "Prepare body" step of [proxyRequest]: the text to send, if any,
    or the error raised for a body over the size ceiling. *)
Definition prepareProxyBody (body : option JsBody) (method : string)
  : Thrown + option string :=
  match body with
  | Some b =>
      if body_truthy body
         && Js.array_includes ["POST"; "PUT"; "PATCH"] (Js.toUpperCase method)
      then
        let proxyBody := body_text b in
        if MAX_BODY_SIZE <? Z.of_nat (String.length proxyBody)
        then inl (newError "Request body too large")
        else inr (Some proxyBody)
      else inr None
  | None => inr None
  end.

Definition proxy_stats_key (sid : string) : string := "proxy_stats:" ++ sid.

Definition proxy_log_key (sid : string) (now : Z) (suffix : string) : string :=
  "proxy_log:" ++ sid ++ ":" ++ pretty now ++ ":" ++ suffix.

(** [Math.random().toString(36).substr(2, 9)]. *)
Definition random_suffix : M RWorld string :=
  fun w => (Ok (random w (kv_ops w)), w).

Definition logProxyRequest (logEntry : ProxyLogEntry) : M RWorld unit :=
  try_catch
    (let* now := Date_now in
     let* suffix := random_suffix in
     let logKey := proxy_log_key (log_serverId logEntry) now suffix in
     KV_put logKey (VProxyLog logEntry) (7 * 24 * 60 * 60) ;;
     let statsKey := proxy_stats_key (log_serverId logEntry) in
     let* existingStats := KV_get statsKey in
     let stats :=
       match existingStats with
       | Some (VProxyStats s) => s
       | _ =>
           {| ps_totalRequests := 0;
              ps_successfulRequests := 0;
              ps_failedRequests := 0;
              ps_averageResponseTime := 0%Q;
              ps_lastRequest := log_timestamp logEntry |}
       end in
     let ok := (200 <=? log_responseStatus logEntry)
               && (log_responseStatus logEntry <? 400) in
     let stats :=
       {| ps_totalRequests := ps_totalRequests stats + 1;
          ps_successfulRequests :=
            if ok then ps_successfulRequests stats + 1
            else ps_successfulRequests stats;
          ps_failedRequests :=
            if ok then ps_failedRequests stats
            else ps_failedRequests stats + 1;
          ps_averageResponseTime :=
            ((ps_averageResponseTime stats
              + inject_Z (log_responseTime logEntry)) / 2)%Q;
          ps_lastRequest := log_timestamp logEntry |} in
     KV_put statsKey (VProxyStats stats) (30 * 24 * 60 * 60))
    (fun _ => ret tt).

Definition proxy_failure (error : Thrown) : ProxyResponse :=
  {| success := false;
     proxy_error := Some (message_or "Unknown error" error);
     proxy_status := 500;
     proxy_statusText := "Internal Server Error";
     proxy_headers := [];
     proxy_body := "";
     proxy_responseTime := 0 |}.

Definition origin_error : Thrown :=
  newError "Target URL must be within the server's domain".

Section Proxy.
(** [new URL(input, base)]: [None] when the constructor raises. *)
Variable URL_new : string -> option string -> option URL.

Definition new_URL (input : string) (base : option string) : M RWorld URL :=
  match URL_new input base with
  | Some u => ret u
  | None => throw (TypeError "Invalid URL")
  end.

(** The forwarded call and what follows it: the inner [try]/[catch]. *)
Definition forward (sid : string) (targetUrl : URL) (method : string)
    (proxyHeaders : Headers) (proxyBody : option string) (startTime : Z)
  : M RWorld ProxyResponse :=
  try_catch
    (let* response :=
       fetch_with_timeout PROXY_TIMEOUT
         (ProxyForward {| req_url := href targetUrl;
                          req_method := Js.toUpperCase method;
                          req_headers := proxyHeaders;
                          req_body := proxyBody |}) in
     let* endTime := Date_now in
     let responseTime := endTime - startTime in
     let* responseBody := response_text response in
     let* ts := Date_now in
     logProxyRequest
       {| log_serverId := sid;
          log_targetUrl := href targetUrl;
          log_method := Js.toUpperCase method;
          log_requestHeaders := proxyHeaders;
          log_requestBody := proxyBody;
          log_responseStatus := resp_status response;
          log_responseHeaders := resp_headers response;
          log_responseBody := responseBody;
          log_responseTime := responseTime;
          log_error := None;
          log_timestamp := ts |} ;;
     ret {| success := true;
            proxy_error := None;
            proxy_status := resp_status response;
            proxy_statusText := resp_statusText response;
            proxy_headers := resp_headers response;
            proxy_body := responseBody;
            proxy_responseTime := responseTime |})
    (fun fetchError =>
       let* endTime := Date_now in
       let responseTime := endTime - startTime in
       let errorMessage :=
         match fetchError with
         | JsError name message =>
             if String.eqb name "AbortError" then "Request timeout" else message
         | JsOther => "Request failed"
         end in
       let* ts := Date_now in
       logProxyRequest
         {| log_serverId := sid;
            log_targetUrl := href targetUrl;
            log_method := Js.toUpperCase method;
            log_requestHeaders := proxyHeaders;
            log_requestBody := proxyBody;
            log_responseStatus := 0;
            log_responseHeaders := [];
            log_responseBody := "";
            log_responseTime := responseTime;
            log_error := Some errorMessage;
            log_timestamp := ts |} ;;
       throw (newError errorMessage)).

(** The outer [try] block of [proxyRequest]. *)
Definition proxyRequest_try (ip : option string) (sid targetPath method : string)
    (headers : Headers) (body : option JsBody) : M RWorld ProxyResponse :=
  (if negb (Js.array_includes ALLOWED_METHODS (Js.toUpperCase method))
   then throw (newError ("Method " ++ method ++ " not allowed"))
   else ret tt) ;;
  let* server := getServer sid in
  match server with
  | None => throw (newError ("Server " ++ sid ++ " not found"))
  | Some server =>
      (match healthStatus server with
       | StOffline => throw (newError ("Server " ++ sid ++ " is currently offline"))
       | _ => ret tt
       end) ;;
      let* rateLimitResult := checkRateLimit ip in
      if negb (allowed rateLimitResult) then
        throw (newError "Rate limit exceeded")
      else
        let* targetUrl := new_URL targetPath (Some (url server)) in
        let* serverUrl := new_URL (url server) None in
        if negb (String.eqb (origin targetUrl) (origin serverUrl)) then
          throw origin_error
        else
          let proxyHeaders := prepareProxyHeaders headers server in
          let* proxyBody :=
            match prepareProxyBody body method with
            | inl tooLarge => throw tooLarge
            | inr proxyBody => ret proxyBody
            end in
          let* startTime := Date_now in
          forward sid targetUrl method proxyHeaders proxyBody startTime
  end.

Definition proxyRequest (ip : option string) (sid targetPath method : string)
    (headers : Headers) (body : option JsBody) : M RWorld ProxyResponse :=
  try_catch (proxyRequest_try ip sid targetPath method headers body)
            (fun error => ret (proxy_failure error)).

End Proxy.

(** * Router (router.ts): the servers and proxy endpoints *)

(** JavaScript numbers that may be NaN. *)
Definition JsNum := option Z.

Definition num_add (a b : JsNum) : JsNum :=
  match a, b with
  | Some x, Some y => Some (x + y)
  | _, _ => None
  end.

(** [a < b]: false when either side is NaN. *)
Definition num_lt (a b : JsNum) : bool :=
  match a, b with
  | Some x, Some y => x <? y
  | _, _ => false
  end.

Definition is_whitespace (c : ascii) : bool :=
  let n := nat_of_ascii c in
  ((9 <=? n)%nat && (n <=? 13)%nat) || (n =? 32)%nat.

Fixpoint skip_whitespace (s : string) : string :=
  match s with
  | String c s' => if is_whitespace c then skip_whitespace s' else s
  | EmptyString => s
  end.

Definition digit_value (c : ascii) : option Z :=
  let n := nat_of_ascii c in
  if (48 <=? n)%nat && (n <=? 57)%nat then Some (Z.of_nat (n - 48))
  else if (97 <=? n)%nat && (n <=? 122)%nat then Some (Z.of_nat (n - 87))
  else if (65 <=? n)%nat && (n <=? 90)%nat then Some (Z.of_nat (n - 55))
  else None.

Fixpoint parse_digits (radix : Z) (s : string) (acc : JsNum) : JsNum :=
  match s with
  | EmptyString => acc
  | String c s' =>
      match digit_value c with
      | Some d =>
          if d <? radix
          then parse_digits radix s'
                 (Some (match acc with Some a => a * radix + d | None => d end))
          else acc
      | None => acc
      end
  end.

(** [parseInt(s)]: leading whitespace, a sign, an optional [0x] prefix,
    then the longest run of digits; NaN when there is none. *)
Definition parseInt (s : string) : JsNum :=
  let s := skip_whitespace s in
  let '(sign, s) :=
    match s with
    | String "-" s' => (-1, s')
    | String "+" s' => (1, s')
    | _ => (1, s)
    end in
  let '(radix, s) :=
    match s with
    | String "0" (String "x" s') => (16, s')
    | String "0" (String "X" s') => (16, s')
    | _ => (10, s)
    end in
  option_map (Z.mul sign) (parse_digits radix s None).

(** [s.split(sep)] for a one-character separator. *)
Fixpoint split_from (sep : ascii) (s : string) (current : string) : list string :=
  match s with
  | EmptyString => [current]
  | String c s' =>
      if Ascii.eqb c sep then current :: split_from sep s' ""
      else split_from sep s' (current ++ String c "")
  end.

Definition split (sep : ascii) (s : string) : list string := split_from sep s "".

(** The relative index of [Array.prototype.slice]: NaN is 0, a negative
    index counts from the end, and the result is clamped to the array. *)
Definition relative_index (len : nat) (i : JsNum) : nat :=
  match i with
  | None => O
  | Some z =>
      if z <? 0 then Z.to_nat (Z.max (Z.of_nat len + z) 0)
      else Z.to_nat (Z.min z (Z.of_nat len))
  end.

(** [l.slice(start, end)]. *)
Definition js_slice {A} (l : list A) (start stop : JsNum) : list A :=
  let k := relative_index (length l) start in
  let final := relative_index (length l) stop in
  firstn (final - k) (skipn k l).

(** [url.searchParams.get(k)]. *)
Definition searchParams_get (params : list (string * string)) (k : string)
  : option string := obj_get k params.

Inductive ApiData :=
| ServersPage (page : list MCPServer) (total : nat) (limit offset : JsNum)
              (hasMore : bool)
| ServerDetail (server : MCPServer)
| ServerSchemaStub (sid : string) (methods : list string) (version : string).

Inductive ResponseBody :=
| SuccessEnvelope (d : ApiData) (ts : Z)
| ErrorEnvelope (error : string) (ts : Z)
| RawBody (text : string).

Record Response := {
  http_status : Z;
  http_statusText : option string;
  http_headers : Headers;
  http_body : ResponseBody;
}.

Definition createSuccessResponse (d : ApiData) (additionalHeaders : Headers)
  : M RWorld Response :=
  let* ts := Date_now in
  ret {| http_status := 200;
         http_statusText := None;
         http_headers := obj_spread [("Content-Type", "application/json")]
                                    additionalHeaders;
         http_body := SuccessEnvelope d ts |}.

Definition createErrorResponse (error : string) (status : Z)
    (additionalHeaders : Headers) : M RWorld Response :=
  let* ts := Date_now in
  ret {| http_status := status;
         http_statusText := None;
         http_headers := obj_spread [("Content-Type", "application/json")]
                                    additionalHeaders;
         http_body := ErrorEnvelope error ts |}.

(** The body of a POST to /api/proxy after [ctx.request.json()]. *)
Record ProxyRequestBody := {
  pb_serverId : option string;
  pb_path : option string;
  pb_method : option string;
  pb_headers : option Headers;
  pb_body : option JsBody;
}.

Inductive RequestJson :=
| ReqInvalid                        (* not JSON: the promise rejects *)
| ReqNull                           (* null: destructuring raises *)
| ReqObject (b : ProxyRequestBody).

(** What the handlers read from [ctx]. *)
Record RequestContext := {
  ctx_ip : option string;
  ctx_searchParams : list (string * string);
  ctx_json : RequestJson;
}.

(** The filters and the page of GET /api/servers. *)
Definition list_servers (ctx : RequestContext) (rateLimitHeaders : Headers)
  : M RWorld Response :=
  let get := searchParams_get (ctx_searchParams ctx) in
  let query := match js_or (get "q") (Some "") with Some q => q | None => "" end in
  let tags := match get "tags" with Some t => split "," t | None => [] end in
  let verified_only :=
    match get "verified" with Some v => String.eqb v "true" | None => false end in
  let limit :=
    parseInt (match js_or (get "limit") (Some "20") with Some s => s | None => "20" end) in
  let offset :=
    parseInt (match js_or (get "offset") (Some "0") with Some s => s | None => "0" end) in
  let* registry := getRegistry in
  let servers := servers registry in
  let servers :=
    if Js.truthy query
    then List.filter (matches_query (Js.toLowerCase query)) servers
    else servers in
  let servers :=
    if (0 <? length tags)%nat
    then List.filter (has_any_tag tags) servers
    else servers in
  let servers :=
    if verified_only
    then List.filter (fun server => verified server) servers
    else servers in
  let total := length servers in
  let servers := js_slice servers offset (num_add offset limit) in
  createSuccessResponse
    (ServersPage servers total limit offset
       (num_lt (num_add offset limit) (Some (Z.of_nat total))))
    rateLimitHeaders.

Definition handleServersEndpoint (ctx : RequestContext) (pathParts : list string)
    (method : string) (rateLimitHeaders : Headers) : M RWorld Response :=
  if negb (String.eqb method "GET") then
    createErrorResponse "Method not allowed" 405 rateLimitHeaders
  else
    try_catch
      (match pathParts with
       | [_] => list_servers ctx rateLimitHeaders
       | [_; sid] =>
           let* server := getServer sid in
           match server with
           | None => createErrorResponse "Server not found" 404 rateLimitHeaders
           | Some server => createSuccessResponse (ServerDetail server) rateLimitHeaders
           end
       | [_; sid; third] =>
           if String.eqb third "schema" then
             let* server := getServer sid in
             match server with
             | None => createErrorResponse "Server not found" 404 rateLimitHeaders
             | Some server =>
                 createSuccessResponse
                   (ServerSchemaStub sid (or_empty (capabilities server))
                                     (version server))
                   rateLimitHeaders
             end
           else createErrorResponse "Invalid servers endpoint" 400 rateLimitHeaders
       | _ => createErrorResponse "Invalid servers endpoint" 400 rateLimitHeaders
       end)
      (fun _ => createErrorResponse "Failed to fetch servers" 500 rateLimitHeaders).

(** [new Response(body, { status, statusText, headers })]: the constructor
    raises for a status outside 200..599 and for a body given with a
    null-body status. *)
Definition new_Response (body : string) (status : Z) (statusText : string)
    (headers : Headers) : M RWorld Response :=
  if (status <? 200) || (599 <? status) then
    throw (JsError "RangeError" "Invalid status")
  else if (status =? 204) || (status =? 205) || (status =? 304) then
    throw (TypeError "Response with null body status cannot have body")
  else
    ret {| http_status := status;
           http_statusText := Some statusText;
           http_headers := headers;
           http_body := RawBody body |}.

Section ProxyEndpoint.
Variable URL_new : string -> option string -> option URL.

Definition handleProxyEndpoint (ctx : RequestContext) (method : string)
    (rateLimitHeaders : Headers) : M RWorld Response :=
  if negb (String.eqb method "POST") then
    createErrorResponse "Method not allowed" 405 rateLimitHeaders
  else
    try_catch
      (match ctx_json ctx with
       | ReqInvalid => throw (JsError "SyntaxError" "Unexpected token in JSON")
       | ReqNull => throw (TypeError "Cannot destructure property of null")
       | ReqObject requestBody =>
           match pb_serverId requestBody, pb_path requestBody,
                 pb_method requestBody with
           | Some sid, Some path, Some targetMethod =>
               if negb (Js.truthy sid) || negb (Js.truthy path)
                  || negb (Js.truthy targetMethod) then
                 createErrorResponse
                   "Missing required fields: serverId, path, method" 400
                   rateLimitHeaders
               else if negb (Js.array_includes ALLOWED_METHODS
                                               (Js.toUpperCase targetMethod)) then
                 createErrorResponse ("Method " ++ targetMethod ++ " not allowed")
                                     400 rateLimitHeaders
               else
                 let* result :=
                   proxyRequest URL_new (ctx_ip ctx) sid path targetMethod
                     (match pb_headers requestBody with Some h => h | None => [] end)
                     (pb_body requestBody) in
                 if success result then
                   new_Response (proxy_body result) (proxy_status result)
                     (proxy_statusText result)
                     (obj_spread rateLimitHeaders
                        [("Content-Type",
                          match js_or (obj_get "content-type" (proxy_headers result))
                                      (Some "application/json") with
                          | Some v => v
                          | None => "application/json"
                          end);
                         ("X-Proxy-Response-Time", pretty (proxy_responseTime result));
                         ("X-Proxy-Server-Id", sid)])
                 else
                   createErrorResponse
                     (match js_or (proxy_error result) (Some "Proxy request failed") with
                      | Some e => e
                      | None => "Proxy request failed"
                      end)
                     (proxy_status result) rateLimitHeaders
           | _, _, _ =>
               createErrorResponse
                 "Missing required fields: serverId, path, method" 400
                 rateLimitHeaders
           end
       end)
      (fun _ => createErrorResponse "Failed to proxy request" 500 rateLimitHeaders).

End ProxyEndpoint.

(** * Credentials (auth.ts) *)

(** [request.headers.get(name)]: header names compare without case. *)
Fixpoint headers_get (name : string) (hs : Headers) : option string :=
  match hs with
  | [] => None
  | (k, v) :: rest =>
      if String.eqb (Js.toLowerCase k) (Js.toLowerCase name) then Some v
      else headers_get name rest
  end.

(** [s.startsWith(p)]. *)
Definition startsWith (s p : string) : bool := String.prefix p s.

Fixpoint string_drop (n : nat) (s : string) : string :=
  match n, s with
  | S n', String _ s' => string_drop n' s'
  | _, _ => s
  end.

(** [s.replace(pat, '')] for a string pattern: the first occurrence of
    [pat] is removed. *)
Fixpoint remove_first (pat s : string) : string :=
  if String.prefix pat s then string_drop (String.length pat) s
  else match s with
       | EmptyString => EmptyString
       | String c s' => String c (remove_first pat s')
       end.

(** [verifyApiKey]; [adminKey] is [env.ADMIN_API_KEY]. *)
Definition verifyApiKey (adminKey : option string) (requestHeaders : Headers) : bool :=
  if negb (opt_truthy adminKey) then false
  else
    let apiKey :=
      js_or (headers_get "X-API-Key" requestHeaders)
            (option_map (remove_first "Bearer ")
                        (headers_get "Authorization" requestHeaders)) in
    match apiKey, adminKey with
    | Some presented, Some expected => String.eqb presented expected
    | _, _ => false
    end.

(** [verifyGitHubToken]; [githubToken] is [env.GITHUB_TOKEN]. *)
Definition verifyGitHubToken (githubToken : option string) (requestHeaders : Headers)
  : bool :=
  if negb (opt_truthy githubToken) then false
  else
    match headers_get "Authorization" requestHeaders with
    | Some authHeader =>
        if negb (Js.truthy authHeader) || negb (startsWith authHeader "token ")
        then false
        else
          let token := remove_first "token " authHeader in
          match githubToken with
          | Some expected => String.eqb token expected
          | None => false
          end
    | None => false
    end.

(** * Health monitor (health.ts): the readers *)

Section HealthReaders.
(** The readers go through [getCachedData]; its type argument is an
    unchecked assertion, so what they yield is whatever payload a cache
    entry under the key carries. *)
Context {T : Type}.

Definition getServerHealthStatus (sid : string) : M (World T) (option T) :=
  try_catch (getCachedData (health_key sid)) (fun _ => ret None).

Definition getHealthSummary : M (World T) (option T) :=
  try_catch (getCachedData "health:summary") (fun _ => ret None).

Definition getServerHealthHistory (sid : string) : M (World T) (list T) :=
  try_catch
    (let* current := getServerHealthStatus sid in
     ret (match current with Some c => [c] | None => [] end))
    (fun _ => ret []).

End HealthReaders.

Definition isServerCritical (healthResult : HealthCheckResult) : bool :=
  is_status Offline healthResult
  || (is_status Degraded healthResult
      && (20000 <? match responseTime healthResult with
                   | Some t => t
                   | None => 0
                   end)).

(** * Schema federator (schema-federation.ts): normalisation *)

(** An entry of a fetched schema document before normalisation. *)
Record RawTool := {
  raw_tool_name : option string;
  raw_tool_description : option string;
  raw_tool_inputSchema : option string;
  raw_tool_outputSchema : option string;
}.

Record RawResource := {
  raw_res_name : option string;
  raw_res_description : option string;
  raw_res_uri : option string;
  raw_res_mimeType : option string;
}.

Record RawPrompt := {
  raw_prompt_name : option string;
  raw_prompt_description : option string;
  raw_prompt_arguments : option (list string);
}.

Definition normalizeTools (tools : list RawTool) (namespace : string)
  : list ToolDefinition :=
  map (fun tool =>
         {| tool_name := or_default (raw_tool_name tool) "unnamed";
            tool_description := or_default (raw_tool_description tool) "";
            tool_inputSchema := raw_tool_inputSchema tool;
            tool_outputSchema := raw_tool_outputSchema tool;
            tool_namespace := Some namespace |})
      tools.

Definition normalizeResources (resources : list RawResource) (namespace : string)
  : list ResourceDefinition :=
  map (fun resource =>
         {| res_name := or_default (raw_res_name resource) "unnamed";
            res_description := or_default (raw_res_description resource) "";
            res_uri := or_default (raw_res_uri resource) "";
            res_mimeType := raw_res_mimeType resource;
            res_namespace := Some namespace |})
      resources.

Definition normalizePrompts (prompts : list RawPrompt) (namespace : string)
  : list PromptDefinition :=
  map (fun prompt =>
         {| prompt_name := or_default (raw_prompt_name prompt) "unnamed";
            prompt_description := or_default (raw_prompt_description prompt) "";
            prompt_arguments := Some (or_empty (raw_prompt_arguments prompt));
            prompt_namespace := Some namespace |})
      prompts.

(** * Proxy gateway (proxy.ts): the statistics reader *)

(** [getProxyStats]; keys of the [proxy_stats:] family hold statistics
    documents only. *)
Definition getProxyStats (sid : string) : M RWorld (option ProxyStats) :=
  try_catch
    (let statsKey := proxy_stats_key sid in
     let* stats := KV_get statsKey in
     match stats with
     | Some (VProxyStats s) => ret (Some s)
     | _ => ret None
     end)
    (fun _ => ret None).

(** * Router (router.ts): the entry point *)

Section Router.
(** [handleRequest] is written over the two responses it passes on:
    what [handleAPIRequest] answers for a path under /api/, and the
    liveness answer. *)
Variable handleAPIRequest : string -> string -> Headers -> M RWorld Response.
Variable liveness : Headers -> M RWorld Response.

Definition handleRequest (ctx : RequestContext) (path method : string)
  : M RWorld Response :=
  let* rateLimitResult := checkRateLimit (ctx_ip ctx) in
  if negb (allowed rateLimitResult) then
    createErrorResponse "Rate limit exceeded" 429
      [("X-RateLimit-Limit", pretty (limit rateLimitResult));
       ("X-RateLimit-Remaining", "0");
       ("X-RateLimit-Reset", pretty (reset rateLimitResult))]
  else
    let rateLimitHeaders :=
      [("X-RateLimit-Limit", pretty (limit rateLimitResult));
       ("X-RateLimit-Remaining", pretty (remaining rateLimitResult));
       ("X-RateLimit-Reset", pretty (reset rateLimitResult))] in
    try_catch
      (if startsWith path "/api/" then
         handleAPIRequest path method rateLimitHeaders
       else if String.eqb path "/health" || String.eqb path "/" then
         liveness rateLimitHeaders
       else createErrorResponse "Not found" 404 rateLimitHeaders)
      (fun _ => createErrorResponse "Internal server error" 500 rateLimitHeaders).

End Router.

(** * Worlds for concrete runs *)

Definition silent_net (n : nat) (o : Outbound) : FetchOutcome :=
  NetFail (TypeError "fetch failed") 0.

Definition quiet_world (T : Type) : World T :=
  {| now := 0; kv := ∅; kv_faults := fun _ => false; kv_ops := 0;
     net := silent_net; outbound := []; random := fun _ => "r" |}.

Definition broken_store_world (T : Type) : World T :=
  {| now := 0; kv := ∅; kv_faults := fun _ => true; kv_ops := 0;
     net := silent_net; outbound := []; random := fun _ => "r" |}.

(** A world whose network gives the same answer to every call. *)
Definition answering_world (T : Type) (answer : FetchOutcome) : World T :=
  {| now := 0; kv := ∅; kv_faults := fun _ => false; kv_ops := 0;
     net := fun _ _ => answer; outbound := []; random := fun _ => "r" |}.

Definition example_server : MCPServer :=
  {| id := "a";
     name := "Server A";
     description := "An example server";
     url := "https://a.example";
     version := "1.0.0";
     tags := ["docs"];
     author := {| author_name := "A"; author_url := None; author_github := None |};
     verified := true;
     healthStatus := StOnline;
     lastChecked := 0;
     capabilities := None;
     authentication := None;
     createdAt := 0;
     updatedAt := 0 |}.

Definition plain_response (status : Z) : HttpResponse :=
  {| resp_status := status; resp_statusText := ""; resp_headers := [];
     resp_text := Some ""; resp_json := JsonInvalid |}.

Definition example_tool (n ns : string) : ToolDefinition :=
  {| tool_name := n; tool_description := ""; tool_inputSchema := None;
     tool_outputSchema := None; tool_namespace := Some ns |}.

Definition example_schema (sid : string) (tools : list ToolDefinition) : MCPSchema :=
  {| schema_serverId := sid; schema_serverName := sid; schema_version := "1.0.0";
     schema_namespace := Some sid; schema_tools := Some tools;
     schema_resources := None; schema_prompts := None;
     schema_capabilities := None; schema_lastFetched := 0 |}.

Definition unverified_server : MCPServer :=
  {| id := "b";
     name := "Server B";
     description := "Another example server";
     url := "https://b.example";
     version := "0.1.0";
     tags := ["data"];
     author := {| author_name := "B"; author_url := None; author_github := None |};
     verified := false;
     healthStatus := StOnline;
     lastChecked := 0;
     capabilities := None;
     authentication := None;
     createdAt := 0;
     updatedAt := 0 |}.

Definition registry_response (l : list MCPServer) : HttpResponse :=
  {| resp_status := 200; resp_statusText := "OK"; resp_headers := [];
     resp_text := Some "";
     resp_json := JsonDoc {| doc_version := Some "1.0.0";
                             doc_servers := ServersArray l;
                             doc_lastUpdated := 0;
                             doc_stats := {| totalServers := Z.of_nat (length l);
                                             onlineServers := 0;
                                             totalRequests := 0 |} |} |}.

(** A world whose registry source lists [l] (and whose servers answer
    probes with the same 200). *)
Definition registry_world (l : list MCPServer) : RWorld :=
  answering_world Registry (NetResponse (registry_response l) 5).

(** [new URL(input, base)] on the inputs of the examples. *)
Definition example_URL_new (input : string) (base : option string) : option URL :=
  match base with
  | Some b =>
      if String.eqb b "https://a.example" then
        if String.eqb input "/ping" then
          Some {| href := "https://a.example/ping"; origin := "https://a.example" |}
        else if String.eqb input "https://evil.example/steal" then
          Some {| href := "https://evil.example/steal"; origin := "https://evil.example" |}
        else None
      else None
  | None =>
      if String.eqb input "https://a.example" then
        Some {| href := "https://a.example/"; origin := "https://a.example" |}
      else None
  end.

(** A POST to /api/proxy carrying the given request. *)
Definition proxy_call (ip : string) (sid path method : string) : RequestContext :=
  {| ctx_ip := Some ip;
     ctx_searchParams := [];
     ctx_json := ReqObject {| pb_serverId := Some sid;
                              pb_path := Some path;
                              pb_method := Some method;
                              pb_headers := None;
                              pb_body := None |} |}.

(** * Auxiliary notions used in the statements *)

Section RateLimiterNotions.
Context {T : Type}.
Local Abbreviation W := (World T).

(** The timestamps the limiter retains when it runs in [w]. *)
Definition retained_at (w : W) (key : string) : list Z :=
  match kv_visible w key with
  | Some (VRateLimit reqs _) =>
      List.filter (fun ts => now w - RATE_LIMIT_WINDOW <? ts) reqs
  | _ => []
  end.

Definition well_shaped (w : W) (key : string) : Prop :=
  match kv_visible w key with
  | None | Some (VRateLimit _ _) => True
  | _ => False
  end.

Definition allowed_result (count : nat) (now : Z) : RateLimitResult :=
  {| allowed := true;
     limit := RATE_LIMIT_MAX_REQUESTS;
     remaining := RATE_LIMIT_MAX_REQUESTS - Z.of_nat count;
     reset := now + RATE_LIMIT_WINDOW |}.

Definition reject_result (oldest : Z) : RateLimitResult :=
  {| allowed := false;
     limit := RATE_LIMIT_MAX_REQUESTS;
     remaining := 0;
     reset := oldest + RATE_LIMIT_WINDOW |}.

(** The answers one client gets for calls at the instants [times] when
    the limiter already holds [stored]. *)
Fixpoint expected_answers (stored : list Z) (times : list Z)
  : list (Res RateLimitResult) :=
  match times with
  | [] => []
  | t :: ts =>
      if RATE_LIMIT_MAX_REQUESTS <=? Z.of_nat (length stored)
      then Ok (reject_result (hd 0 stored)) :: expected_answers stored ts
      else Ok (allowed_result (length (stored ++ [t])) t)
           :: expected_answers (stored ++ [t]) ts
  end.

(** The store holds exactly [stored] for [key], and keeps it until [until]
    at least. *)
Definition holds (w : W) (key : string) (stored : list Z) (until : Z) : Prop :=
  (stored = [] /\ kv w !! key = None) \/
  (exists ws e, kv w !! key = Some {| kv_value := VRateLimit stored ws;
                                      kv_expires := e |} /\ until <= e).

End RateLimiterNotions.

(** Two worlds that differ in the store only. *)
Definition kv_only {T} (w w' : World T) : Prop :=
  now w' = now w /\ net w' = net w /\ outbound w' = outbound w /\
  kv_faults w' = kv_faults w /\ random w' = random w.

(** A computation that keeps every world related to the one it started
    from. *)
Definition preserves {W A} (R : W -> W -> Prop) (m : M W A) : Prop :=
  forall w, R w (m w).2.

(** The store's fault schedule is left as it is. *)
Definition same_faults {T} (w w' : World T) : Prop :=
  kv_faults w' = kv_faults w.

(** No call is forwarded to a registered server. *)
Definition is_forward (o : Outbound) : bool :=
  match o with ProxyForward _ => true | _ => false end.

Definition no_new_forward {T} (w w' : World T) : Prop :=
  List.filter is_forward (outbound w') = List.filter is_forward (outbound w).

(** How the registry source can fail: the call itself fails (a network
    error or a timeout), the response is not a success, the body is not a
    JSON object, or the document has no truthy [version] or no [servers]
    list. *)
Definition registry_source_fails (answer : FetchOutcome) : Prop :=
  match answer with
  | NetFail _ _ => True
  | NetResponse r _ =>
      resp_ok r = false \/
      resp_json r = JsonInvalid \/
      resp_json r = JsonNull \/
      exists d, resp_json r = JsonDoc d /\
                (doc_version d = None \/ doc_version d = Some "" \/
                 forall l, doc_servers d <> ServersArray l)
  end.

(** The registry source answers with a well-shaped document in [elapsed]
    milliseconds. *)
Definition registry_source_gives (answer : FetchOutcome) (reg : Registry)
    (elapsed : Z) : Prop :=
  exists r d v,
    answer = NetResponse r elapsed /\ resp_ok r = true /\
    resp_json r = JsonDoc d /\
    doc_version d = Some v /\ v <> "" /\
    doc_servers d = ServersArray (servers reg) /\
    reg = {| reg_version := v; reg_lastUpdated := doc_lastUpdated d;
             servers := servers reg; stats := doc_stats d |}.

(** What a probe reports for an answer of the network: status, reason and
    measured time. *)
Definition probe_verdict (answer : FetchOutcome) : ProbeStatus * option string * Z :=
  if HEALTH_CHECK_TIMEOUT <=? outcome_elapsed answer then
    (Degraded, Some "Request timeout", HEALTH_CHECK_TIMEOUT)
  else
    match answer with
    | NetResponse r elapsed => (classify_response r elapsed, None, elapsed)
    | NetFail e elapsed =>
        (fst (classify_error e), Some (snd (classify_error e)), elapsed)
    end.

(** The entries of a pool that carry the name [n]: its contributors. *)
Definition with_name {A} (get_name : A -> string) (n : string) (items : list A)
  : list A :=
  List.filter (fun x => String.eqb (get_name x) n) items.





Section GroupNotions.
Context {A : Type}.
Variable kind : ConflictType.
Variable get_name : A -> string.
Variable get_namespace : A -> option string.
Variable set_name : string -> A -> A.

(** [map.get(k)]. *)
Fixpoint map_get (k : string) (m : list (string * list A)) : option (list A) :=
  match m with
  | [] => None
  | (k', l) :: rest => if String.eqb k' k then Some l else map_get k rest
  end.

(** The map groups the entries seen so far by name. *)
Definition grouped (m : list (string * list A)) (seen : list A) : Prop :=
  NoDup (map fst m) /\
  forall k, map_get k m =
            match with_name get_name k seen with
            | [] => None
            | l => Some l
            end.



End GroupNotions.

(** [r] is what the sweep records for [server] from some run of the probe. *)
Definition recorded (probe : MCPServer -> M RWorld HealthCheckResult)
    (server : MCPServer) (r : HealthCheckResult) : Prop :=
  exists wi,
    (probe_or_offline probe server wi).1 = Ok r /\
    serverId r = id server /\
    (forall e, (probe server wi).1 = Throw e ->
       r = {| serverId := id server;
              status := Offline;
              responseTime := None;
              error := Some (message_or "Health check failed" e);
              timestamp := now (probe server wi).2 |}).

(** The number of batches for [n] servers: the ceiling of [n / 10]. *)
Definition batch_count (n : nat) : nat := ((n + 9) / 10)%nat.

(** A probe that reports on the server it was given and leaves the store's
    fault schedule alone. *)
Definition sound_probe (probe : MCPServer -> M RWorld HealthCheckResult) : Prop :=
  (forall server, preserves same_faults (probe server)) /\
  (forall server w r, (probe server w).1 = Ok r -> serverId r = id server).

(** A probe that always rejects. *)
Definition failing_probe (server : MCPServer) : M RWorld HealthCheckResult :=
  throw (newError "probe crashed").

(** The conjunction of the filters that are given. *)
Definition accepts (query : option string) (tags : option (list string))
    (verified_filter : option bool) (server : MCPServer) : bool :=
  (match query with
   | Some q => if Js.truthy q then matches_query (Js.toLowerCase q) server else true
   | None => true
   end)
  && (match tags with
      | Some t => if (0 <? length t)%nat then has_any_tag t server else true
      | None => true
      end)
  && (match verified_filter with
      | Some v => Bool.eqb (verified server) v
      | None => true
      end).

(** Every outbound call made so far is still on record. *)
Definition outbound_kept {T} (w w' : World T) : Prop :=
  forall o, In o (outbound w) -> In o (outbound w').

(** Every value a computation settles with satisfies [P]. *)
Definition returns {W A} (P : A -> Prop) (m : M W A) : Prop :=
  forall w r w', m w = (Ok r, w') -> P r.

(** The message the gateway reports for a failed forward. *)
Definition forward_error_message (fetchError : Thrown) : string :=
  match fetchError with
  | JsError name message =>
      if String.eqb name "AbortError" then "Request timeout" else message
  | JsOther => "Request failed"
  end.

(** The forwarded request. *)
Definition forwarded_request (server : MCPServer) (target : URL) (method : string)
    (headers : Headers) (proxyBody : option string) : Outbound :=
  ProxyForward {| req_url := href target;
                  req_method := Js.toUpperCase method;
                  req_headers := prepareProxyHeaders headers server;
                  req_body := proxyBody |}.

(** * Properties *)

(** ** The store *)

Section StoreFacts.
Context {T : Type}.
Local Abbreviation W := (World T).

Lemma KV_get_ok (w : W) key :
  kv_faults w (kv_ops w) = false ->
  KV_get key w = (Ok (kv_visible w key), tick_kv w).
Proof. intros H. unfold KV_get, kv_op. rewrite H. reflexivity. Qed.

Lemma KV_get_fault (w : W) key :
  kv_faults w (kv_ops w) = true ->
  KV_get key w = (Throw (newError "KV operation failed"), tick_kv w).
Proof. intros H. unfold KV_get, kv_op. rewrite H. reflexivity. Qed.

Lemma KV_put_ok (w : W) key v e :
  kv_faults w (kv_ops w) = false ->
  KV_put key v e w =
  (Ok tt, set_kv (<[key := {| kv_value := v; kv_expires := now w + e * 1000 |}]> (kv w))
                 (tick_kv w)).
Proof. intros H. unfold KV_put, kv_op. rewrite H. reflexivity. Qed.

Lemma KV_put_fault (w : W) key v e :
  kv_faults w (kv_ops w) = true ->
  KV_put key v e w = (Throw (newError "KV operation failed"), tick_kv w).
Proof. intros H. unfold KV_put, kv_op. rewrite H. reflexivity. Qed.

Lemma KV_delete_ok (w : W) key :
  kv_faults w (kv_ops w) = false ->
  KV_delete key w = (Ok tt, set_kv (delete key (kv w)) (tick_kv w)).
Proof. intros H. unfold KV_delete, kv_op. rewrite H. reflexivity. Qed.

(** [getCachedData] and [setCachedData] never reject. *)
Lemma getCachedData_total (w : W) key :
  exists r, (getCachedData key w).1 = Ok r.
Proof.
  unfold getCachedData, try_catch.
  destruct (bind _ _ w) as [[r|e] w']; simpl; eauto.
Qed.

Lemma setCachedData_total (w : W) key (d : T) ttl :
  exists b, (setCachedData key d ttl w).1 = Ok b.
Proof.
  unfold setCachedData, try_catch.
  destruct (bind _ _ w) as [[r|e] w']; simpl; eauto.
Qed.

(** What a successful [setCachedData] leaves in the store. *)
Lemma setCachedData_ok (w : W) key (d : T) ttl :
  kv_faults w (kv_ops w) = false ->
  setCachedData key d ttl w =
  (Ok true,
   set_kv (<[key := {| kv_value := VCacheEntry {| data := d; ce_timestamp := now w;
                                                  ttl := ttl |};
                       kv_expires := now w + (ttl + 60) * 1000 |}]> (kv w))
          (tick_kv w)).
Proof.
  intros H. unfold setCachedData, try_catch, bind, Date_now.
  rewrite KV_put_ok by exact H. reflexivity.
Qed.

(** A read of a stored cache entry, by cases on the logical deadline. *)
Lemma getCachedData_entry (w : W) key c exp :
  kv w !! key = Some {| kv_value := VCacheEntry c; kv_expires := exp |} ->
  now w < exp ->
  kv_faults w (kv_ops w) = false ->
  (now w <= ce_timestamp c + ttl c * 1000 ->
   getCachedData key w = (Ok (Some (data c)), tick_kv w)) /\
  (ce_timestamp c + ttl c * 1000 < now w ->
   (getCachedData key w).1 = Ok None /\
   (kv_faults w (S (kv_ops w)) = false ->
    kv (getCachedData key w).2 !! key = None)).
Proof.
  intros Hk Hexp Hf.
  assert (Hvis : kv_visible w key = Some (VCacheEntry c)).
  { unfold kv_visible. rewrite Hk. simpl.
    destruct (Z.ltb_spec (now w) exp); [reflexivity | lia]. }
  split.
  - intros Hle. unfold getCachedData, try_catch, bind.
    rewrite KV_get_ok by exact Hf. rewrite Hvis. unfold Date_now. simpl.
    destruct (Z.ltb_spec (ce_timestamp c + ttl c * 1000) (now w)); [lia | reflexivity].
  - intros Hlt. unfold getCachedData, try_catch, bind.
    rewrite KV_get_ok by exact Hf. rewrite Hvis. unfold Date_now. simpl.
    destruct (Z.ltb_spec (ce_timestamp c + ttl c * 1000) (now w)); [| lia].
    unfold KV_delete, kv_op. simpl.
    destruct (kv_faults w (S (kv_ops w))) eqn:Hd; simpl.
    + split; [reflexivity | discriminate].
    + split; [reflexivity | intros _; apply lookup_delete_eq].
Qed.

End StoreFacts.

(** ** C7: logical expiry of cache entries *)

(** C7. After [setCachedData key value ttl] has written to the store at
    instant [now w], a [getCachedData key] at instant [t] returns the value
    while [t] is within the logical ttl; once the logical ttl has elapsed it
    returns a miss, and while the store's own expiry (ttl + 60 seconds) has
    not yet fired the entry is still held by the store and the read deletes
    it.  The logical deadline is never later than the store's. *)
Theorem cache_logical_expiry_before_store_expiry
    (T : Type) (key : string) (value : T) (ttl t : Z) (w : World T) :
  kv_faults w (kv_ops w) = false ->
  let w1 := set_now t (setCachedData key value ttl w).2 in
  let logical_deadline := now w + ttl * 1000 in
  let store_deadline := now w + (ttl + 60) * 1000 in
  (setCachedData key value ttl w).1 = Ok true /\
  logical_deadline < store_deadline /\
  (t <= logical_deadline ->
   kv_faults w (S (kv_ops w)) = false ->
   (getCachedData key w1).1 = Ok (Some value)) /\
  (logical_deadline < t ->
   (getCachedData key w1).1 = Ok None /\
   (t < store_deadline ->
    kv_visible w1 key =
      Some (VCacheEntry {| data := value; ce_timestamp := now w; ttl := ttl |}) /\
    (kv_faults w (S (kv_ops w)) = false ->
     kv_faults w (S (S (kv_ops w))) = false ->
     kv (getCachedData key w1).2 !! key = None))).
Proof.
  intros Hput w1 ld sd. subst w1 ld sd.
  rewrite setCachedData_ok by exact Hput. simpl.
  set (c := {| data := value; ce_timestamp := now w; ttl := ttl |}).
  set (w1 := set_now t _).
  assert (Hk : kv w1 !! key =
               Some {| kv_value := VCacheEntry c; kv_expires := now w + (ttl + 60) * 1000 |}).
  { subst w1. simpl. apply lookup_insert_eq. }
  split; [reflexivity |]. split; [lia |]. split.
  - intros Hle Hget.
    destruct (getCachedData_entry w1 key c _ Hk) as [Hhit _].
    + subst w1; simpl; lia.
    + exact Hget.
    + rewrite Hhit; [reflexivity | subst w1; simpl; lia].
  - intros Hlt. split.
    + (* a miss, whatever the store does *)
      unfold getCachedData, try_catch, bind, KV_get, kv_op.
      destruct (kv_faults w1 (kv_ops w1)) eqn:Hg; [reflexivity |].
      simpl. unfold kv_visible. simpl. rewrite lookup_insert_eq. simpl.
      destruct (t <? now w + (ttl + 60) * 1000); [| reflexivity].
      simpl. unfold Date_now. simpl.
      destruct (Z.ltb_spec (now w + ttl * 1000) t); [| lia].
      unfold KV_delete, kv_op. simpl.
      destruct (kv_faults w (S (S (kv_ops w)))); reflexivity.
    + intros Hsd. split.
      * unfold kv_visible. rewrite Hk. simpl.
        destruct (Z.ltb_spec t (now w + (ttl + 60) * 1000)); [reflexivity | lia].
      * intros Hget Hdel.
        destruct (getCachedData_entry w1 key c _ Hk) as [_ Hmiss].
        -- subst w1; simpl; lia.
        -- exact Hget.
        -- destruct Hmiss as [_ Hgone]; [subst w1; simpl; lia |].
           apply Hgone. exact Hdel.
Qed.

Lemma cache_logical_expiry_witness :
  kv_faults (quiet_world nat) (kv_ops (quiet_world nat)) = false /\
  (getCachedData "k" (set_now 5001 (setCachedData "k" 7%nat 5 (quiet_world nat)).2)).1
  = Ok None.
Proof.
  split; [reflexivity |].
  pose proof (cache_logical_expiry_before_store_expiry nat "k" 7%nat 5 5001
                (quiet_world nat) eq_refl) as H.
  simpl in H. destruct H as (_ & _ & _ & H). apply H. reflexivity.
Defined.

(** ** The rate limiter *)

Section RateLimiterFacts.
Context {T : Type}.
Local Abbreviation W := (World T).

(** One check against a store that answers. *)
Lemma checkRateLimit_step (w : W) (ip : string) :
  Js.truthy ip = true ->
  kv_faults w (kv_ops w) = false ->
  kv_faults w (S (kv_ops w)) = false ->
  well_shaped w (rate_limit_key ip) ->
  let key := rate_limit_key ip in
  let retained := retained_at w key in
  checkRateLimit (Some ip) w =
  if RATE_LIMIT_MAX_REQUESTS <=? Z.of_nat (length retained) then
    (Ok (reject_result (hd 0 retained)), tick_kv w)
  else
    (Ok (allowed_result (length (retained ++ [now w])) (now w)),
     set_kv (<[key := {| kv_value := VRateLimit (retained ++ [now w]) (now w);
                         kv_expires := now w + 120 * 1000 |}]> (kv w))
            (tick_kv (tick_kv w))).
Proof.
  intros Hip Hg Hp Hshape key retained.
  unfold checkRateLimit. rewrite Hip.
  unfold bind at 1. unfold Date_now at 1.
  unfold try_catch, checkRateLimit_try.
  unfold bind at 1. unfold bind at 1.
  rewrite KV_get_ok by exact Hg.
  fold key.
  assert (Hret :
    (match kv_visible w key with
     | Some (VRateLimit reqs _) =>
         ret (List.filter (fun ts => now w - RATE_LIMIT_WINDOW <? ts) reqs)
     | Some _ => throw (TypeError "Cannot read properties of undefined")
     | None => ret []
     end) (tick_kv w) = (Ok retained, tick_kv w)).
  { subst retained. unfold retained_at. unfold well_shaped in Hshape. fold key in Hshape.
    destruct (kv_visible w key) as [[]|]; try contradiction; reflexivity. }
  rewrite Hret.
  destruct (RATE_LIMIT_MAX_REQUESTS <=? Z.of_nat (length retained)) eqn:Hmax.
  - destruct retained as [|oldest rest] eqn:Hr.
    + exfalso. apply Z.leb_le in Hmax. unfold RATE_LIMIT_MAX_REQUESTS in Hmax.
      simpl in Hmax. lia.
    + reflexivity.
  - unfold bind. rewrite KV_put_ok by exact Hp. reflexivity.
Qed.

(** Every check settles with a result: the limiter never rejects its
    promise. *)
Lemma checkRateLimit_total (w : W) ip :
  exists r, (checkRateLimit ip w).1 = Ok r.
Proof.
  unfold checkRateLimit.
  destruct ip as [ip|]; [destruct (Js.truthy ip) |]; try (eexists; reflexivity).
  unfold bind, Date_now, try_catch.
  destruct (checkRateLimit_try _ _ w) as [[r|e] w']; eexists; reflexivity.
Qed.

End RateLimiterFacts.

Section RateLimiterWindow.
Context {T : Type}.
Local Abbreviation W := (World T).

Lemma filter_all_true {A} (p : A -> bool) (l : list A) :
  (forall x, In x l -> p x = true) -> List.filter p l = l.
Proof.
  induction l as [|a l IH]; intros H; simpl; [reflexivity |].
  rewrite (H a (or_introl eq_refl)). f_equal. apply IH.
  intros x Hx. apply H. right. exact Hx.
Qed.

(** Calls of one client inside one window, against a store that answers:
    the answers are the expected ones and the store keeps what was
    admitted. *)
Lemma check_sequence_in_window (ip : string) (t0 : Z) :
  Js.truthy ip = true ->
  forall (times stored : list Z) (w : W),
    (forall n, kv_faults w n = false) ->
    (forall t, In t times -> t0 <= t < t0 + RATE_LIMIT_WINDOW) ->
    (forall t, In t stored -> t0 <= t) ->
    holds w (rate_limit_key ip) stored (t0 + RATE_LIMIT_WINDOW) ->
    let run := check_sequence (Some ip) times w in
    run.1 = expected_answers stored times /\
    (forall n, kv_faults run.2 n = false) /\
    exists stored',
      holds run.2 (rate_limit_key ip) stored' (t0 + RATE_LIMIT_WINDOW) /\
      (forall t, In t stored' -> t0 <= t) /\
      (Z.of_nat (length stored) <= RATE_LIMIT_MAX_REQUESTS ->
       stored' = firstn 100 (stored ++ times)).
Proof.
  intros Hip times.
  induction times as [|t ts IH]; intros stored w Hf Hwin Hst Hh run.
  - subst run. simpl. split; [reflexivity |]. split; [exact Hf |].
    exists stored. split; [exact Hh |]. split; [exact Hst |].
    intros Hlen. rewrite app_nil_r. symmetry. apply firstn_all2.
    unfold RATE_LIMIT_MAX_REQUESTS in Hlen. lia.
  - assert (Ht : t0 <= t < t0 + RATE_LIMIT_WINDOW) by (apply Hwin; left; reflexivity).
    set (w1 := set_now t w).
    assert (Hret : retained_at w1 (rate_limit_key ip) = stored
                   /\ well_shaped w1 (rate_limit_key ip)).
    { unfold retained_at, well_shaped, kv_visible. subst w1. simpl.
      destruct Hh as [[-> Hnone] | (ws & e & Hsome & He)].
      - rewrite Hnone. split; [reflexivity | exact I].
      - rewrite Hsome. simpl.
        destruct (Z.ltb_spec t e); [| lia].
        split; [| exact I].
        apply filter_all_true. intros x Hx. apply Z.ltb_lt.
        specialize (Hst x Hx). lia. }
    destruct Hret as [Hret Hshape].
    pose proof (checkRateLimit_step w1 ip Hip (Hf _) (Hf _) Hshape) as Hstep.
    cbv zeta in Hstep. rewrite Hret in Hstep.
    subst run. cbn [check_sequence]. fold w1. rewrite Hstep.
    cbn [expected_answers].
    destruct (RATE_LIMIT_MAX_REQUESTS <=? Z.of_nat (length stored)) eqn:Hmax.
    + (* rejected: the store is left as it is *)
      specialize (IH stored (tick_kv w1)).
      destruct IH as (Hres & Hf' & stored' & Hh' & Hst' & Heq).
      * intros n. apply Hf.
      * intros x Hx. apply Hwin. right. exact Hx.
      * exact Hst.
      * exact Hh.
      * destruct (check_sequence (Some ip) ts (tick_kv w1)) as [rs w'] eqn:Hrun.
        simpl in *. split; [f_equal; exact Hres |]. split; [exact Hf' |].
        exists stored'. split; [exact Hh' |]. split; [exact Hst' |].
        intros Hlen. rewrite (Heq Hlen).
        apply Z.leb_le in Hmax. unfold RATE_LIMIT_MAX_REQUESTS in *.
        rewrite !firstn_app.
        replace (100 - length stored)%nat with 0%nat by lia.
        reflexivity.
    + (* admitted: the instant is appended and stored *)
      set (w2 := set_kv _ _).
      specialize (IH (stored ++ [t])%list w2).
      destruct IH as (Hres & Hf' & stored' & Hh' & Hst' & Heq).
      * intros n. apply Hf.
      * intros x Hx. apply Hwin. right. exact Hx.
      * intros x Hx. apply in_app_or in Hx. destruct Hx as [Hx | [<- | []]].
        -- apply Hst. exact Hx.
        -- lia.
      * right. exists t, (t + 120 * 1000). split.
        -- subst w2. simpl. apply lookup_insert_eq.
        -- unfold RATE_LIMIT_WINDOW. lia.
      * destruct (check_sequence (Some ip) ts w2) as [rs w'] eqn:Hrun.
        simpl in *. split; [f_equal; exact Hres |]. split; [exact Hf' |].
        exists stored'. split; [exact Hh' |]. split; [exact Hst' |].
        intros Hlen. apply Z.leb_gt in Hmax.
        rewrite Heq.
        -- rewrite <- app_assoc. reflexivity.
        -- rewrite length_app. simpl. unfold RATE_LIMIT_MAX_REQUESTS in *. lia.
Qed.

(** The expected answers in closed form. *)
Lemma expected_answers_lookup (times stored : list Z) (i : nat) (t : Z) :
  times !! i = Some t ->
  expected_answers stored times !! i =
  Some (Ok (if (length stored + i <? 100)%nat
            then allowed_result (S (length stored + i)) t
            else reject_result (hd 0 (stored ++ times)))).
Proof.
  revert stored i. induction times as [|a ts IH]; intros stored i Hi.
  - destruct i; discriminate.
  - cbn [expected_answers].
    destruct (RATE_LIMIT_MAX_REQUESTS <=? Z.of_nat (length stored)) eqn:Hmax.
    + apply Z.leb_le in Hmax. unfold RATE_LIMIT_MAX_REQUESTS in Hmax.
      assert (Hhd : forall l, hd 0 (stored ++ l) = hd 0 stored).
      { intros l. destruct stored; [simpl in Hmax; lia | reflexivity]. }
      destruct i as [|i].
      * simpl. destruct (Nat.ltb_spec (length stored + 0) 100); [lia |].
        rewrite Hhd. reflexivity.
      * simpl in Hi. simpl. rewrite (IH stored i Hi).
        destruct (Nat.ltb_spec (length stored + i) 100); [lia |].
        destruct (Nat.ltb_spec (length stored + S i) 100); [lia |].
        rewrite !Hhd. reflexivity.
    + apply Z.leb_gt in Hmax. unfold RATE_LIMIT_MAX_REQUESTS in Hmax.
      destruct i as [|i].
      * simpl in Hi. injection Hi as ->. simpl.
        destruct (Nat.ltb_spec (length stored + 0) 100); [| lia].
        rewrite length_app. simpl.
        replace (length stored + 1)%nat with (S (length stored + 0)) by lia.
        reflexivity.
      * simpl in Hi. simpl. rewrite (IH (stored ++ [a])%list i Hi).
        rewrite length_app. simpl.
        replace (length stored + 1 + i)%nat with (length stored + S i)%nat by lia.
        rewrite <- app_assoc. reflexivity.
Qed.

End RateLimiterWindow.

(** ** C4: one hundred admits per window *)

(** C4. One client (a non-empty key), a store that answers and holds
    nothing for the client yet, and calls at non-decreasing instants that
    all fall within 60 seconds of the first one: the first 100 calls are
    admitted, each with [remaining] equal to 100 minus the new count; every
    later call of the window is rejected with [remaining = 0] and [reset]
    equal to the earliest retained timestamp plus the window.  A call made
    once the window of the earliest timestamp has elapsed is admitted again,
    because the expired timestamps are dropped before the count is compared
    with the cap, and its [remaining] is again 100 minus the count that is
    stored. *)
Theorem rate_limiter_window (T : Type) (ip : string) (t0 : Z) (later : list Z)
    (w : World T) :
  Js.truthy ip = true ->
  (forall n, kv_faults w n = false) ->
  kv w !! rate_limit_key ip = None ->
  StronglySorted Z.le (t0 :: later) ->
  Forall (fun t => t < t0 + RATE_LIMIT_WINDOW) later ->
  let times := t0 :: later in
  let run := check_sequence (Some ip) times w in
  (forall (i : nat) (t : Z), times !! i = Some t ->
     run.1 !! i =
     Some (Ok (if (i <? 100)%nat
               then {| allowed := true; limit := 100;
                       remaining := 100 - Z.of_nat (S i);
                       reset := t + 60000 |}
               else {| allowed := false; limit := 100;
                       remaining := 0;
                       reset := t0 + 60000 |}))) /\
  (forall t', t0 + RATE_LIMIT_WINDOW <= t' ->
     let again := checkRateLimit (Some ip) (set_now t' run.2) in
     exists r reqs ws e,
       again.1 = Ok r /\ allowed r = true /\
       kv again.2 !! rate_limit_key ip =
         Some {| kv_value := VRateLimit reqs ws; kv_expires := e |} /\
       remaining r = 100 - Z.of_nat (length reqs)).
Proof.
  intros Hip Hf Hnone Hsorted Hwin times run.
  assert (Hin : forall t, In t times -> t0 <= t < t0 + RATE_LIMIT_WINDOW).
  { intros t [<- | Ht].
    - unfold RATE_LIMIT_WINDOW. lia.
    - apply StronglySorted_inv in Hsorted. destruct Hsorted as [_ Hle].
      rewrite Forall_forall in Hle, Hwin. specialize (Hle t). specialize (Hwin t).
      rewrite <- !list_elem_of_In in *. split; [apply Hle | apply Hwin]; exact Ht. }
  destruct (check_sequence_in_window ip t0 Hip times [] w Hf Hin)
    as (Hres & Hf' & stored' & Hh' & Hst' & Heq).
  { intros t []. }
  { left. split; [reflexivity | exact Hnone]. }
  fold run in Hres, Hf', Hh'.
  split.
  - intros i t Hi. rewrite Hres.
    rewrite (expected_answers_lookup times [] i t Hi). simpl.
    destruct (i <? 100)%nat; reflexivity.
  - intros t' Ht' again.
    specialize (Heq ltac:(unfold RATE_LIMIT_MAX_REQUESTS; simpl; lia)).
    simpl in Heq.
    set (w1 := set_now t' run.2).
    set (key := rate_limit_key ip).
    assert (Hshape : well_shaped w1 key /\
                     (length (retained_at w1 key) < 100)%nat).
    { unfold well_shaped, retained_at, kv_visible. subst w1. simpl.
      destruct Hh' as [[_ Hk] | (ws & e & Hk & _)]; fold key in Hk; rewrite Hk.
      - split; [exact I | simpl; lia].
      - simpl. destruct (t' <? e); [| split; [exact I | simpl; lia]].
        split; [exact I |].
        rewrite Heq. simpl.
        destruct (Z.ltb_spec (t' - RATE_LIMIT_WINDOW) t0); [lia |].
        eapply Nat.le_lt_trans; [apply filter_length_le |].
        rewrite length_firstn. lia. }
    destruct Hshape as [Hshape Hlen].
    pose proof (checkRateLimit_step w1 ip Hip (Hf' _) (Hf' _) Hshape) as Hstep.
    cbv zeta in Hstep. fold key in Hstep.
    destruct (Z.leb_spec RATE_LIMIT_MAX_REQUESTS
                (Z.of_nat (length (retained_at w1 key)))) as [Hge | Hlt].
    { unfold RATE_LIMIT_MAX_REQUESTS in Hge. lia. }
    subst again. fold w1. rewrite Hstep.
    eexists _, _, _, _. cbn [fst snd].
    split; [reflexivity |]. split; [reflexivity |].
    split; [simpl; apply lookup_insert_eq |].
    reflexivity.
Qed.

Lemma repeat_sorted (x : Z) (n : nat) : StronglySorted Z.le (repeat x n).
Proof.
  induction n as [|n IH]; simpl; constructor; [exact IH |].
  apply Forall_forall. intros y Hy. apply list_elem_of_In, repeat_spec in Hy. lia.
Qed.

Lemma rate_limiter_window_witness :
  (check_sequence (T := unit) (Some "203.0.113.7") (repeat 7 101) (quiet_world unit)).1
    !! 100%nat
  = Some (Ok {| allowed := false; limit := 100; remaining := 0; reset := 60007 |}).
Proof.
  assert (Hw : Forall (fun t => t < 7 + RATE_LIMIT_WINDOW) (repeat 7 100)).
  { apply Forall_forall. intros y Hy. apply list_elem_of_In, repeat_spec in Hy.
    unfold RATE_LIMIT_WINDOW. lia. }
  exact (proj1 (rate_limiter_window unit "203.0.113.7" 7 (repeat 7 100)
                  (quiet_world unit) eq_refl (fun _ => eq_refl) eq_refl
                  (repeat_sorted 7 101) Hw) 100%nat 7 eq_refl).
Defined.

(** ** C9: the limiter fails open *)

(** C9. When the read from the store raises, or the read answers and the
    write of the updated list raises, the check admits the request; more
    generally every error raised inside the limiter's [try] block yields the
    admitting answer. *)
Theorem rate_limiter_fails_open (T : Type) (ip : string) (w : World T) :
  Js.truthy ip = true ->
  let key := rate_limit_key ip in
  let out := checkRateLimit (Some ip) w in
  (kv_faults w (kv_ops w) = true ->
   exists r, out.1 = Ok r /\ allowed r = true) /\
  (kv_faults w (kv_ops w) = false ->
   well_shaped w key ->
   Z.of_nat (length (retained_at w key)) < RATE_LIMIT_MAX_REQUESTS ->
   kv_faults w (S (kv_ops w)) = true ->
   exists r, out.1 = Ok r /\ allowed r = true) /\
  (forall e w', checkRateLimit_try key (now w) w = (Throw e, w') ->
   exists r, out.1 = Ok r /\ allowed r = true).
Proof.
  intros Hip key out.
  assert (Hcatch : forall e w', checkRateLimit_try key (now w) w = (Throw e, w') ->
                                exists r, out.1 = Ok r /\ allowed r = true).
  { intros e w' Htry. subst out. unfold checkRateLimit. rewrite Hip.
    unfold bind, Date_now, try_catch. fold key. rewrite Htry.
    eexists. split; reflexivity. }
  split; [| split; [| exact Hcatch]].
  - intros Hfault. eapply Hcatch.
    unfold checkRateLimit_try, bind. rewrite KV_get_fault by exact Hfault.
    reflexivity.
  - intros Hget Hshape Hlen Hput. eapply Hcatch.
    unfold checkRateLimit_try. unfold bind at 1. unfold bind at 1.
    rewrite KV_get_ok by exact Hget.
    unfold well_shaped in Hshape. unfold retained_at in Hlen.
    destruct (kv_visible w key) as [[]|]; try contradiction.
    + unfold ret at 1.
      destruct (Z.leb_spec RATE_LIMIT_MAX_REQUESTS
         (Z.of_nat (length (List.filter (fun ts => now w - RATE_LIMIT_WINDOW <? ts) requests))));
        [lia |].
      unfold bind. rewrite KV_put_fault by exact Hput. reflexivity.
    + unfold ret at 1.
      destruct (Z.leb_spec RATE_LIMIT_MAX_REQUESTS (Z.of_nat (length (@nil Z))));
        [simpl in *; lia |].
      unfold bind. rewrite KV_put_fault by exact Hput. reflexivity.
Qed.

Lemma rate_limiter_fails_open_witness :
  exists r, (checkRateLimit (Some "203.0.113.7") (broken_store_world unit)).1 = Ok r
            /\ allowed r = true.
Proof.
  exact (proj1 (rate_limiter_fails_open unit "203.0.113.7" (broken_store_world unit)
                  eq_refl) eq_refl).
Defined.

(** ** Relations kept by the computations *)

Section Preserves.
Context {W : Type}.
Variable R : W -> W -> Prop.
Hypothesis R_refl : forall w, R w w.
Hypothesis R_trans : forall w1 w2 w3, R w1 w2 -> R w2 w3 -> R w1 w3.

Lemma preserves_ret {A} (a : A) : preserves R (ret (W := W) a).
Proof. intros w. apply R_refl. Qed.

Lemma preserves_throw {A} e : preserves R (throw (W := W) (A := A) e).
Proof. intros w. apply R_refl. Qed.

Lemma preserves_bind {A B} (m : M W A) (k : A -> M W B) :
  preserves R m -> (forall a, preserves R (k a)) -> preserves R (bind m k).
Proof.
  intros Hm Hk w. unfold bind. specialize (Hm w).
  destruct (m w) as [[a|e] w1]; simpl in *; [| exact Hm].
  eapply R_trans; [exact Hm | apply Hk].
Qed.

Lemma preserves_try_catch {A} (m : M W A) (h : Thrown -> M W A) :
  preserves R m -> (forall e, preserves R (h e)) -> preserves R (try_catch m h).
Proof.
  intros Hm Hh w. unfold try_catch. specialize (Hm w).
  destruct (m w) as [[a|e] w1]; simpl in *; [exact Hm |].
  eapply R_trans; [exact Hm | apply Hh].
Qed.

(** A [try] block that starts with [f]: what follows [f] keeps [R]. *)
Lemma try_catch_bind_kept {A B} (f : M W A) (k : A -> M W B) (h : Thrown -> M W B) :
  (forall a, preserves R (k a)) -> (forall e, preserves R (h e)) ->
  forall w, R (f w).2 (try_catch (bind f k) h w).2.
Proof.
  intros Hk Hh w. unfold try_catch, bind.
  destruct (f w) as [[a|e] w1]; simpl.
  - specialize (Hk a w1). destruct (k a w1) as [[b|e] w2]; simpl in *; [exact Hk |].
    eapply R_trans; [exact Hk | apply Hh].
  - apply Hh.
Qed.

End Preserves.

Section WorldRelations.
Context {T : Type}.
Local Abbreviation W := (World T).

Lemma kv_only_refl (w : W) : kv_only w w.
Proof. repeat split. Qed.

Lemma kv_only_trans (w1 w2 w3 : W) : kv_only w1 w2 -> kv_only w2 w3 -> kv_only w1 w3.
Proof.
  intros (a1 & a2 & a3 & a4 & a5) (b1 & b2 & b3 & b4 & b5).
  repeat split; congruence.
Qed.

Lemma same_faults_refl (w : W) : same_faults w w.
Proof. reflexivity. Qed.

Lemma same_faults_trans (w1 w2 w3 : W) :
  same_faults w1 w2 -> same_faults w2 w3 -> same_faults w1 w3.
Proof. unfold same_faults. congruence. Qed.

Lemma no_new_forward_refl (w : W) : no_new_forward w w.
Proof. reflexivity. Qed.

Lemma no_new_forward_trans (w1 w2 w3 : W) :
  no_new_forward w1 w2 -> no_new_forward w2 w3 -> no_new_forward w1 w3.
Proof. unfold no_new_forward. congruence. Qed.

Lemma kv_only_same_faults (w w' : W) : kv_only w w' -> same_faults w w'.
Proof. intros (_ & _ & _ & H & _). exact H. Qed.

Lemma kv_only_no_new_forward (w w' : W) : kv_only w w' -> no_new_forward w w'.
Proof. intros (_ & _ & H & _). unfold no_new_forward. rewrite H. reflexivity. Qed.

Lemma preserves_weaken {A} (R R' : W -> W -> Prop) (m : M W A) :
  (forall w w', R w w' -> R' w w') -> preserves R m -> preserves R' m.
Proof. intros Himp Hm w. apply Himp, Hm. Qed.

End WorldRelations.

Create HintDb frame.
#[local] Hint Resolve kv_only_refl kv_only_trans same_faults_refl same_faults_trans
  no_new_forward_refl no_new_forward_trans : frame.

(** One step through a computation built from [ret], [throw], [bind] and
    [try_catch]. *)
Ltac frame_step :=
  first [ apply preserves_ret; eauto with frame
        | apply preserves_throw; eauto with frame
        | apply preserves_bind; [eauto with frame | | ]
        | apply preserves_try_catch; [eauto with frame | | ] ].

Section StoreOnly.
Context {T : Type}.
Local Abbreviation W := (World T).

Lemma store_only_Date_now : preserves kv_only (Date_now (T := T)).
Proof. intros w. apply kv_only_refl. Qed.

Lemma store_only_kv_op {A} (body : M W A) :
  preserves kv_only body -> preserves kv_only (kv_op body).
Proof.
  intros Hb w. unfold kv_op. destruct (kv_faults w (kv_ops w)); simpl.
  - repeat split.
  - eapply kv_only_trans; [| apply Hb]. repeat split.
Qed.

Lemma store_only_KV_get key : preserves kv_only (KV_get (T := T) key).
Proof. apply store_only_kv_op. intros w. apply kv_only_refl. Qed.

Lemma store_only_KV_put key v e : preserves kv_only (KV_put (T := T) key v e).
Proof. apply store_only_kv_op. intros w. repeat split. Qed.

Lemma store_only_KV_delete key : preserves kv_only (KV_delete (T := T) key).
Proof. apply store_only_kv_op. intros w. repeat split. Qed.

Lemma store_only_getCachedData key : preserves kv_only (getCachedData (T := T) key).
Proof.
  unfold getCachedData. frame_step; [| intros _; frame_step].
  frame_step; [apply store_only_KV_get |].
  intros [[c| | | | |]|]; try solve [frame_step].
  frame_step; [apply store_only_Date_now |].
  intros t. destruct (_ <? _); [| frame_step].
  frame_step; [apply store_only_KV_delete | intros _; frame_step].
Qed.

Lemma store_only_setCachedData key (d : T) ttl :
  preserves kv_only (setCachedData key d ttl).
Proof.
  unfold setCachedData. frame_step; [| intros _; frame_step].
  frame_step; [apply store_only_Date_now |].
  intros t. frame_step; [apply store_only_KV_put | intros _; frame_step].
Qed.

Lemma store_only_checkRateLimit ip : preserves kv_only (checkRateLimit (T := T) ip).
Proof.
  unfold checkRateLimit.
  assert (Hopen : preserves kv_only (let* now := Date_now (T := T) in ret (fail_open now))).
  { frame_step; [apply store_only_Date_now | intros t; frame_step]. }
  destruct ip as [ip|]; [| exact Hopen].
  destruct (Js.truthy ip); [| exact Hopen].
  frame_step; [apply store_only_Date_now |].
  intros t. frame_step; [| intros _; frame_step].
  unfold checkRateLimit_try.
  frame_step; [apply store_only_KV_get |].
  intros d. frame_step.
  - destruct d as [[]|]; frame_step.
  - intros requests. destruct (_ <=? _).
    + destruct requests; frame_step.
    + frame_step; [apply store_only_KV_put | intros _; frame_step].
Qed.

End StoreOnly.

(** ** C8: the registry never fails *)

(** What [fetchRegistryFromGitHub] does with each answer of the source. *)
Lemma fetchRegistryFromGitHub_fails (w : RWorld) :
  registry_source_fails (net w (length (outbound w)) (RegistryFetch GITHUB_REGISTRY_URL)) ->
  exists e, (fetchRegistryFromGitHub w).1 = Throw e.
Proof.
  unfold fetchRegistryFromGitHub, bind, fetch.
  destruct (net w _ _) as [e el | r el]; simpl; [eauto |].
  intros H. destruct (resp_ok r) eqn:Hok; simpl; [| eexists; reflexivity].
  destruct H as [H | [H | [H | (d & H & Hd)]]].
  - discriminate.
  - rewrite H. eexists; reflexivity.
  - rewrite H. eexists; reflexivity.
  - rewrite H. destruct (invalid_registry_format d) eqn:Hinv; [eexists; reflexivity |].
    exfalso. unfold invalid_registry_format in Hinv.
    destruct Hd as [Hd | [Hd | Hd]].
    + rewrite Hd in Hinv. discriminate.
    + rewrite Hd in Hinv. discriminate.
    + destruct (doc_version d) as [v|]; [destruct (Js.truthy v) |];
        destruct (doc_servers d) as [| [] | l]; simpl in Hinv;
        try discriminate; exact (Hd l eq_refl).
Qed.

Lemma fetchRegistryFromGitHub_gives (w : RWorld) reg elapsed :
  registry_source_gives (net w (length (outbound w)) (RegistryFetch GITHUB_REGISTRY_URL))
                        reg elapsed ->
  fetchRegistryFromGitHub w =
  (Ok reg, set_now (now w + elapsed)
                   (log_outbound (RegistryFetch GITHUB_REGISTRY_URL) w)).
Proof.
  intros (r & d & v & Hnet & Hok & Hjson & Hv & Hne & Hs & Hreg).
  unfold fetchRegistryFromGitHub, bind, fetch. rewrite Hnet, Hok. simpl.
  rewrite Hjson. unfold invalid_registry_format. rewrite Hv, Hs.
  assert (Htr : Js.truthy v = true).
  { unfold Js.truthy. destruct (String.eqb_spec v ""); [contradiction | reflexivity]. }
  rewrite Htr. simpl. destruct reg as [rv rl rs rst]. simpl in *.
  injection Hreg as -> -> ->. reflexivity.
Qed.

Lemma getRegistry_total (w : RWorld) : exists reg, (getRegistry w).1 = Ok reg.
Proof.
  unfold getRegistry, try_catch.
  match goal with
  | |- context [match ?m w with _ => _ end] => destruct (m w) as [[r|e] w']
  end; simpl; eauto.
Qed.

(** C8. [getRegistry] always settles with a registry.  A cached snapshot is
    returned as it is.  On a cache miss, when the source fails (network
    failure or timeout, a response that is not a success, a body that is not
    a JSON document, a document without [version] or whose [servers] is not
    a list) the built-in fallback with exactly one server is returned; when
    the source gives a well-shaped document it is returned and, the store
    answering, written to the cache under its key. *)
Theorem getRegistry_never_raises (w : RWorld) :
  let out := getRegistry w in
  let answer := net w (length (outbound w)) (RegistryFetch GITHUB_REGISTRY_URL) in
  (exists reg, out.1 = Ok reg) /\
  (forall cached,
     (getCachedData REGISTRY_CACHE_KEY w).1 = Ok (Some cached) ->
     out.1 = Ok cached) /\
  ((getCachedData REGISTRY_CACHE_KEY w).1 = Ok None ->
   (registry_source_fails answer ->
    out.1 = Ok (createFallbackRegistry (now out.2)) /\
    length (servers (createFallbackRegistry (now out.2))) = 1%nat) /\
   (forall reg elapsed,
      registry_source_gives answer reg elapsed ->
      out.1 = Ok reg /\
      ((forall n, kv_faults w n = false) ->
       kv out.2 !! REGISTRY_CACHE_KEY =
       Some {| kv_value := VCacheEntry {| data := reg;
                                          ce_timestamp := now w + elapsed;
                                          ttl := REGISTRY_CACHE_TTL |};
               kv_expires := now w + elapsed + (REGISTRY_CACHE_TTL + 60) * 1000 |}))).
Proof.
  intros out answer. subst out.
  split; [| split].
  - apply getRegistry_total.
  - intros cached Hc. unfold getRegistry, try_catch, bind.
    destruct (getCachedData REGISTRY_CACHE_KEY w) as [[c|e] w1]; simpl in Hc;
      [| discriminate].
    injection Hc as ->. reflexivity.
  - intros Hmiss.
    pose proof (store_only_getCachedData (T := Registry) REGISTRY_CACHE_KEY w) as Hfr.
    destruct (getCachedData REGISTRY_CACHE_KEY w) as [[c|e] w1] eqn:Hget;
      simpl in Hmiss; [| discriminate].
    injection Hmiss as ->. simpl in Hfr.
    destruct Hfr as (Hnow & Hnet & Hout & Hfaults & _).
    assert (Hans : net w1 (length (outbound w1)) (RegistryFetch GITHUB_REGISTRY_URL)
                   = answer).
    { subst answer. rewrite Hnet, Hout. reflexivity. }
    split.
    + intros Hfail. rewrite <- Hans in Hfail.
      destruct (fetchRegistryFromGitHub_fails w1 Hfail) as [e He].
      destruct (fetchRegistryFromGitHub w1) as [[r|e'] w2] eqn:Hfetch; simpl in He;
        [discriminate |].
      assert (Hrun : getRegistry w = (Ok (createFallbackRegistry (now w2)), w2)).
      { unfold getRegistry, try_catch, bind. rewrite Hget, Hfetch. reflexivity. }
      rewrite Hrun. simpl. split; reflexivity.
    + intros reg elapsed Hgive. rewrite <- Hans in Hgive.
      pose proof (fetchRegistryFromGitHub_gives w1 reg elapsed Hgive) as Hfetch.
      set (w2 := set_now _ _) in Hfetch.
      pose proof (setCachedData_total w2 REGISTRY_CACHE_KEY reg REGISTRY_CACHE_TTL)
        as [b Hb].
      destruct (setCachedData REGISTRY_CACHE_KEY reg REGISTRY_CACHE_TTL w2)
        as [[b'|e'] w3] eqn:Hset; simpl in Hb; [| discriminate].
      assert (Hrun : getRegistry w = (Ok reg, w3)).
      { unfold getRegistry, try_catch, bind. rewrite Hget, Hfetch, Hset. reflexivity. }
      rewrite Hrun. simpl. split; [reflexivity |].
      intros Hquiet.
      rewrite setCachedData_ok in Hset.
      * injection Hset as _ <-. simpl. rewrite lookup_insert_eq.
        subst w2. simpl. rewrite Hnow. reflexivity.
      * subst w2. simpl. rewrite Hfaults. apply Hquiet.
Qed.

Lemma getRegistry_never_raises_witness :
  (getRegistry (quiet_world Registry)).1
  = Ok (createFallbackRegistry (now (getRegistry (quiet_world Registry)).2)).
Proof.
  pose proof (getRegistry_never_raises (quiet_world Registry)) as H.
  destruct H as (_ & _ & H).
  destruct (H eq_refl) as [Hfail _].
  exact (proj1 (Hfail I)).
Defined.

(** ** C3: classification of a health probe *)

Lemma checkServerHealth_run (server : MCPServer) (w : RWorld) :
  let answer := net w (length (outbound w)) (HealthProbe (url server)) in
  let '(st, reason, elapsed) := probe_verdict answer in
  checkServerHealth server w =
  (Ok {| serverId := id server; status := st; responseTime := Some elapsed;
         error := reason; timestamp := now w + elapsed |},
   set_now (now w + elapsed) (log_outbound (HealthProbe (url server)) w)).
Proof.
  intros answer. unfold probe_verdict.
  unfold checkServerHealth, bind, try_catch, Date_now, fetch_with_timeout.
  fold answer.
  destruct (HEALTH_CHECK_TIMEOUT <=? outcome_elapsed answer) eqn:Ht.
  - simpl. replace (now w + HEALTH_CHECK_TIMEOUT - now w) with HEALTH_CHECK_TIMEOUT by lia.
    reflexivity.
  - destruct answer as [e el | r el]; simpl.
    + replace (now w + el - now w) with el by lia.
      destruct (classify_error e) as [st msg]. reflexivity.
    + replace (now w + el - now w) with el by lia. reflexivity.
Qed.

(** C3, as the code has it.  A probe always settles with a result for its
    server.  A response received before the 30 s timer fires: success within
    10 s is online, success after more than 10 s is degraded, a status of
    500 or more is degraded, any other response is offline.  The timer
    firing, an AbortError, or a failure whose message contains "timeout" is
    degraded with reason "Request timeout".  Any other failure is offline;
    its reason is "Network error" when the message contains "fetch" or
    "network", otherwise the failure's own message, and "Unknown error" for
    a thrown value that is not an Error. *)
Theorem health_probe_classification (server : MCPServer) (w : RWorld) :
  let answer := net w (length (outbound w)) (HealthProbe (url server)) in
  exists r,
    (checkServerHealth server w).1 = Ok r /\ serverId r = id server /\
    (forall resp elapsed,
       answer = NetResponse resp elapsed -> elapsed < HEALTH_CHECK_TIMEOUT ->
       error r = None /\ responseTime r = Some elapsed /\
       (resp_ok resp = true -> elapsed <= 10000 -> status r = Online) /\
       (resp_ok resp = true -> 10000 < elapsed -> status r = Degraded) /\
       (resp_ok resp = false -> 500 <= resp_status resp -> status r = Degraded) /\
       (resp_ok resp = false -> resp_status resp < 500 -> status r = Offline)) /\
    (HEALTH_CHECK_TIMEOUT <= outcome_elapsed answer ->
     status r = Degraded /\ error r = Some "Request timeout") /\
    (forall e elapsed,
       answer = NetFail e elapsed -> elapsed < HEALTH_CHECK_TIMEOUT ->
       match e with
       | JsError name message =>
           if String.eqb name "AbortError" || Js.includes message "timeout"
           then status r = Degraded /\ error r = Some "Request timeout"
           else status r = Offline /\
                error r = Some (if Js.includes message "fetch"
                                   || Js.includes message "network"
                                then "Network error" else message)
       | JsOther => status r = Offline /\ error r = Some "Unknown error"
       end).
Proof.
  intros answer.
  pose proof (checkServerHealth_run server w) as Hrun. cbv zeta in Hrun.
  fold answer in Hrun.
  destruct (probe_verdict answer) as [[st reason] el] eqn:Hv.
  rewrite Hrun. eexists. split; [reflexivity |]. split; [reflexivity |].
  unfold probe_verdict in Hv. simpl.
  split; [| split].
  - intros resp elapsed Ha Hlt. rewrite Ha in Hv. simpl in Hv.
    destruct (Z.leb_spec HEALTH_CHECK_TIMEOUT elapsed); [lia |].
    injection Hv as <- <- <-. unfold classify_response.
    split; [reflexivity |]. split; [reflexivity |].
    repeat split; intros Hok Hs; rewrite Hok.
    + destruct (Z.ltb_spec 10000 elapsed); [lia | reflexivity].
    + destruct (Z.ltb_spec 10000 elapsed); [reflexivity | lia].
    + destruct (Z.leb_spec 500 (resp_status resp)); [reflexivity | lia].
    + destruct (Z.leb_spec 500 (resp_status resp)); [lia | reflexivity].
  - intros Hge. destruct (Z.leb_spec HEALTH_CHECK_TIMEOUT (outcome_elapsed answer));
      [| lia].
    injection Hv as <- <- <-. split; reflexivity.
  - intros e elapsed Ha Hlt. rewrite Ha in Hv. simpl in Hv.
    destruct (Z.leb_spec HEALTH_CHECK_TIMEOUT elapsed); [lia |].
    injection Hv as <- <- <-. unfold classify_error.
    destruct e as [name message |]; [| split; reflexivity].
    destruct (String.eqb name "AbortError" || Js.includes message "timeout");
      [split; reflexivity |].
    destruct (Js.includes message "fetch" || Js.includes message "network");
      split; reflexivity.
Qed.

Lemma health_probe_classification_witness :
  exists r,
    (checkServerHealth example_server
       (answering_world Registry (NetResponse (plain_response 503) 120))).1 = Ok r
    /\ status r = Degraded.
Proof.
  destruct (health_probe_classification example_server
              (answering_world Registry (NetResponse (plain_response 503) 120)))
    as (r & Hr & _ & Hresp & _).
  exists r. split; [exact Hr |].
  destruct (Hresp (plain_response 503) 120 eq_refl) as (_ & _ & _ & _ & H & _).
  - unfold HEALTH_CHECK_TIMEOUT. lia.
  - apply H; [reflexivity | simpl; lia].
Defined.

(** C3 as stated fails: a transport failure that is not the timer's
    cancellation need not be reported with the reason "Network error".  A
    refused connection is reported offline with its own message. *)
Lemma health_probe_reason_counterexample :
  ~ (forall (server : MCPServer) (w : RWorld) (e : Thrown) (elapsed : Z)
            (r : HealthCheckResult),
       net w (length (outbound w)) (HealthProbe (url server)) = NetFail e elapsed ->
       elapsed < HEALTH_CHECK_TIMEOUT ->
       (forall m, e <> JsError "AbortError" m) ->
       (checkServerHealth server w).1 = Ok r ->
       status r = Offline /\ error r = Some "Network error").
Proof.
  intros H.
  specialize (H example_server
                (answering_world Registry (NetFail (TypeError "connection refused") 12))
                (TypeError "connection refused") 12
                {| serverId := "a"; status := Offline; responseTime := Some 12;
                   error := Some "connection refused"; timestamp := 12 |}
                eq_refl).
  destruct H as [_ H].
  - unfold HEALTH_CHECK_TIMEOUT. lia.
  - intros m. discriminate.
  - reflexivity.
  - discriminate.
Qed.

(** A failure that is not a cancellation but mentions a timeout is
    reported degraded, not offline. *)
Example health_probe_timeout_message :
  (checkServerHealth example_server
     (answering_world Registry (NetFail (TypeError "socket timeout") 12))).1
  = Ok {| serverId := "a"; status := Degraded; responseTime := Some 12;
          error := Some "Request timeout"; timestamp := 12 |}.
Proof. reflexivity. Qed.

(** ** C2: the federated merge *)

Section ResolveConflictsFacts.
Context {A : Type}.
Variable kind : ConflictType.
Variable get_name : A -> string.
Variable get_namespace : A -> option string.
Variable set_name : string -> A -> A.

Local Abbreviation rename := (rename_item get_name get_namespace set_name).
Local Abbreviation named := (with_name get_name).
Local Abbreviation grouped' := (grouped get_name).
Local Abbreviation NMap := (list (string * list A)).



Lemma with_name_idem n (items : list A) :
  named n (named n items) = named n items.
Proof.
  unfold with_name. induction items as [|x l IH]; simpl; [reflexivity |].
  destruct (String.eqb (get_name x) n) eqn:He; simpl; [| exact IH].
  rewrite He, IH. reflexivity.
Qed.

















End ResolveConflictsFacts.

(** Two servers that both expose [search]; only the first exposes [fetch]. *)
Example merge_two_servers :
  let fed := mergeSchemas
               [example_schema "ns1" [example_tool "search" "ns1"; example_tool "fetch" "ns1"];
                example_schema "ns2" [example_tool "search" "ns2"]] 0 in
  map tool_name (fed_tools fed) = ["ns1:search"; "ns2:search"; "fetch"] /\
  fed_conflicts fed =
    [ {| conflict_type := CTool; conflict_name := "search";
         conflict_servers := ["ns1"; "ns2"]; conflict_resolution := ByNamespace |} ].
Proof. split; reflexivity. Qed.


(** ** C5: the health sweep *)

Section NetworkFacts.
Context {T : Type}.
Local Abbreviation W := (World T).
Variable R : W -> W -> Prop.
Hypothesis R_refl : forall w, R w w.
Hypothesis R_trans : forall w1 w2 w3, R w1 w2 -> R w2 w3 -> R w1 w3.
Hypothesis R_now : forall t w, R w (set_now t w).

Lemma preserves_Promise_all_from {A} (ms : list (M W A)) t0 :
  Forall (preserves R) ms -> preserves R (Promise_all_from t0 ms).
Proof.
  induction ms as [|m ms IH]; intros Hall w; simpl.
  - apply R_now.
  - apply Forall_cons in Hall. destruct Hall as [Hm Hms].
    specialize (Hm (set_now t0 w)).
    destruct (m (set_now t0 w)) as [r w1].
    specialize (IH Hms w1).
    destruct (Promise_all_from t0 ms w1) as [rs w2]. simpl in *.
    eapply R_trans; [apply R_now |].
    eapply R_trans; [exact Hm |].
    eapply R_trans; [exact IH | apply R_now].
Qed.

Lemma preserves_Promise_all {A} (ms : list (M W A)) :
  Forall (preserves R) ms -> preserves R (Promise_all ms).
Proof. intros H w. unfold Promise_all. apply preserves_Promise_all_from. exact H. Qed.

End NetworkFacts.

Section FaultSchedule.
Context {T : Type}.
Local Abbreviation W := (World T).

Lemma same_faults_now t (w : W) : same_faults w (set_now t w).
Proof. reflexivity. Qed.

Lemma same_faults_Date_now : preserves same_faults (Date_now (T := T)).
Proof. intros w. reflexivity. Qed.

Lemma same_faults_fetch o : preserves same_faults (fetch (T := T) o).
Proof. intros w. unfold fetch. destruct (net w _ _); reflexivity. Qed.

Lemma same_faults_fetch_with_timeout t o :
  preserves same_faults (fetch_with_timeout (T := T) t o).
Proof.
  intros w. unfold fetch_with_timeout.
  destruct (_ <=? _); [reflexivity |]. destruct (net w _ _); reflexivity.
Qed.

Lemma same_faults_of_store_only {A} (m : M W A) :
  preserves kv_only m -> preserves same_faults m.
Proof. apply preserves_weaken. apply kv_only_same_faults. Qed.

End FaultSchedule.

Lemma same_faults_fetchRegistry : preserves same_faults fetchRegistryFromGitHub.
Proof.
  unfold fetchRegistryFromGitHub.
  frame_step; [apply same_faults_fetch |].
  intros r. destruct (negb _); [frame_step |].
  destruct (resp_json r) as [| | d]; try solve [frame_step].
  destruct (invalid_registry_format d); [frame_step |].
  destruct (doc_version d); [destruct (doc_servers d) |]; frame_step.
Qed.

Lemma same_faults_getRegistry : preserves same_faults getRegistry.
Proof.
  unfold getRegistry. frame_step.
  - frame_step; [apply same_faults_of_store_only, store_only_getCachedData |].
    intros [r|]; [frame_step |].
    frame_step; [apply same_faults_fetchRegistry |].
    intros reg. frame_step; [| intros _; frame_step].
    apply same_faults_of_store_only, store_only_setCachedData.
  - intros _. frame_step; [apply same_faults_Date_now | intros t; frame_step].
Qed.

(** The counts of a summary add up to its total. *)
Lemma make_summary_counts (results : list HealthCheckResult) (now : Z) :
  let s := make_summary results now in
  (sum_onlineServers s + sum_degradedServers s + sum_offlineServers s)%nat
  = sum_totalServers s.
Proof.
  simpl. induction results as [|r rs IH]; simpl; [reflexivity |].
  destruct r as [? [] ? ? ?]; simpl; lia.
Qed.

(** With a store that answers, the summary is what [health:summary] holds
    after [storeHealthCheckResults]. *)
Lemma Promise_all_from_last_put (t0 : Z) (ms : list (M RWorld unit)) k v e :
  Forall (fun m => exists k' v' e', m = KV_put k' v' e') ms ->
  forall w : RWorld,
    (forall n, kv_faults w n = false) ->
    kv (Promise_all_from t0 (ms ++ [KV_put k v e]) w).2 !! k =
    Some {| kv_value := v; kv_expires := t0 + e * 1000 |}.
Proof.
  induction ms as [|m ms IH]; intros Hall w Hq.
  - simpl. rewrite KV_put_ok by (simpl; apply Hq). simpl. apply lookup_insert_eq.
  - apply Forall_cons in Hall. destruct Hall as [(k' & v' & e' & ->) Hms].
    cbn [app Promise_all_from].
    rewrite KV_put_ok by (simpl; apply Hq).
    set (w1 := set_kv _ _).
    specialize (IH Hms w1 ltac:(intros n; subst w1; simpl; apply Hq)).
    destruct (Promise_all_from t0 (ms ++ [KV_put k v e]) w1) as [rs w2].
    simpl in *. exact IH.
Qed.

Lemma storeHealthCheckResults_summary (results : list HealthCheckResult) (w : RWorld) :
  (forall n, kv_faults w n = false) ->
  kv (storeHealthCheckResults results w).2 !! "health:summary" =
  Some {| kv_value := VHealthSummary (make_summary results (now w));
          kv_expires := now w + HEALTH_CHECK_CACHE_TTL * 2 * 1000 |}.
Proof.
  intros Hq. unfold storeHealthCheckResults, try_catch, bind, Date_now, Promise_all.
  match goal with
  | |- context [Promise_all_from ?t (?ms ++ [KV_put ?k ?v ?e]) w] =>
      pose proof (Promise_all_from_last_put t ms k v e) as Hlast
  end.
  specialize (Hlast ltac:(apply Forall_forall; intros m Hm;
                          apply list_elem_of_In, in_map_iff in Hm;
                          destruct Hm as (r & <- & _); eauto) w Hq).
  destruct (Promise_all_from _ _ w) as [[us|err] w2]; simpl in *; exact Hlast.
Qed.

Lemma storeHealthCheckResults_total (results : list HealthCheckResult) (w : RWorld) :
  (storeHealthCheckResults results w).1 = Ok tt.
Proof.
  unfold storeHealthCheckResults, try_catch.
  match goal with
  | |- context [match ?m w with _ => _ end] => destruct (m w) as [[[]|e] w']
  end; reflexivity.
Qed.

Lemma batch_count_step (n : nat) :
  (0 < n)%nat -> batch_count n = S (batch_count (n - 10)).
Proof.
  intros Hn. unfold batch_count.
  destruct (Nat.lt_ge_cases n 10) as [Hlt | Hge].
  - replace (n - 10)%nat with 0%nat by lia. simpl.
    symmetry. apply (Nat.div_unique (n + 9) 10 1 (n - 1)); lia.
  - replace (n + 9)%nat with ((n - 10 + 9) + 1 * 10)%nat by lia.
    rewrite Nat.div_add by lia. lia.
Qed.

Section SweepFacts.
Variable probe : MCPServer -> M RWorld HealthCheckResult.
Hypothesis probe_sound : sound_probe probe.

Lemma probe_or_offline_recorded (server : MCPServer) (w : RWorld) :
  exists r, (probe_or_offline probe server w).1 = Ok r /\ recorded probe server r.
Proof.
  destruct probe_sound as [_ Hid].
  assert (H : exists r, (probe_or_offline probe server w).1 = Ok r /\
                        serverId r = id server /\
                        (forall e, (probe server w).1 = Throw e ->
                           r = {| serverId := id server;
                                  status := Offline;
                                  responseTime := None;
                                  error := Some (message_or "Health check failed" e);
                                  timestamp := now (probe server w).2 |})).
  { unfold probe_or_offline, try_catch. specialize (Hid server w).
    destruct (probe server w) as [[r|e] w1]; simpl in *.
    - exists r. split; [reflexivity |]. split; [apply Hid; reflexivity | discriminate].
    - eexists. split; [reflexivity |]. split; [reflexivity |].
      intros e' He. injection He as <-. reflexivity. }
  destruct H as (r & Hr & Hrest). exists r. split; [exact Hr |].
  exists w. split; [exact Hr | exact Hrest].
Qed.

Lemma same_faults_probe_or_offline server :
  preserves same_faults (probe_or_offline probe server).
Proof.
  unfold probe_or_offline. frame_step; [apply probe_sound |].
  intros e. frame_step; [apply same_faults_Date_now | intros t; frame_step].
Qed.

(** One batch: every probe of the batch is recorded, in order. *)
Lemma Promise_all_batch (batch : list MCPServer) :
  forall (t0 : Z) (w : RWorld),
    exists rs,
      (Promise_all_from t0 (map (probe_or_offline probe) batch) w).1 = Ok rs /\
      Forall2 (recorded probe) batch rs.
Proof.
  induction batch as [|s batch IH]; intros t0 w; simpl.
  - exists []. split; [reflexivity | constructor].
  - destruct (probe_or_offline_recorded s (set_now t0 w)) as (r & Hr & Hrec).
    destruct (probe_or_offline probe s (set_now t0 w)) as [r0 w1]. simpl in Hr. subst r0.
    destruct (IH t0 w1) as (rs & Hrs & Hall).
    destruct (Promise_all_from t0 (map (probe_or_offline probe) batch) w1) as [rs0 w2].
    simpl in Hrs. subst rs0. simpl.
    exists (r :: rs). split; [reflexivity | constructor; assumption].
Qed.

Lemma same_faults_batch (batch : list MCPServer) :
  preserves same_faults (Promise_all (map (probe_or_offline probe) batch)).
Proof.
  apply preserves_Promise_all; eauto with frame.
  - intros t w. reflexivity.
  - apply Forall_forall. intros m Hm. apply list_elem_of_In, in_map_iff in Hm.
    destruct Hm as (s & <- & _). apply same_faults_probe_or_offline.
Qed.

(** The loop with enough fuel: the number of batches, their sizes, and one
    recorded result per remaining server. *)
Lemma sweep_loop_spec (servers : list MCPServer) :
  forall (fuel i : nat) (w : RWorld),
    (length servers - i <= fuel)%nat ->
    exists batches,
      (sweep_loop probe fuel i servers w).1 = Ok batches /\
      length batches = batch_count (length servers - i) /\
      Forall (fun b => (1 <= length b <= 10)%nat) batches /\
      Forall2 (recorded probe) (skipn i servers) (concat batches) /\
      same_faults w (sweep_loop probe fuel i servers w).2.
Proof.
  induction fuel as [|fuel IH]; intros i w Hfuel.
  - simpl. exists []. split; [reflexivity |]. split.
    + replace (length servers - i)%nat with 0%nat by lia. reflexivity.
    + split; [constructor |]. split; [| reflexivity].
      rewrite skipn_all2 by lia. constructor.
  - cbn [sweep_loop].
    destruct (Nat.ltb_spec i (length servers)) as [Hlt | Hge].
    + unfold bind, Promise_all.
      pose proof (same_faults_batch (slice i (i + MAX_CONCURRENT_CHECKS) servers) w)
        as Hsf.
      unfold Promise_all in Hsf.
      destruct (Promise_all_batch (slice i (i + MAX_CONCURRENT_CHECKS) servers) (now w) w)
        as (rs & Hrs & Hall).
      destruct (Promise_all_from (now w) _ w) as [rs0 w1]. simpl in Hrs, Hsf. subst rs0.
      destruct (IH (i + MAX_CONCURRENT_CHECKS)%nat w1) as (bs & Hbs & Hlen & Hsz & Hrec & Hsf').
      { unfold MAX_CONCURRENT_CHECKS. lia. }
      destruct (sweep_loop probe fuel (i + MAX_CONCURRENT_CHECKS) servers w1) as [bs0 w2].
      simpl in Hbs, Hsf'. subst bs0. simpl.
      exists (rs :: bs). split; [reflexivity |].
      assert (Hbatch : slice i (i + MAX_CONCURRENT_CHECKS) servers
                       = firstn 10 (skipn i servers)).
      { unfold slice, MAX_CONCURRENT_CHECKS. f_equal. lia. }
      rewrite Hbatch in Hall.
      split; [| split; [| split]].
      * simpl. rewrite Hlen. unfold MAX_CONCURRENT_CHECKS.
        rewrite (batch_count_step (length servers - i)) by lia.
        do 2 f_equal. lia.
      * constructor; [| exact Hsz].
        apply Forall2_length in Hall. rewrite <- Hall.
        rewrite length_firstn, length_skipn. lia.
      * simpl. rewrite <- (firstn_skipn 10 (skipn i servers)).
        apply Forall2_app; [exact Hall |].
        rewrite skipn_skipn. unfold MAX_CONCURRENT_CHECKS in Hrec.
        replace (10 + i)%nat with (i + 10)%nat by lia. exact Hrec.
      * unfold same_faults in *. congruence.
    + simpl. exists []. split; [reflexivity |]. split.
      * replace (length servers - i)%nat with 0%nat by lia. reflexivity.
      * split; [constructor |]. split; [| reflexivity].
        rewrite skipn_all2 by lia. constructor.
Qed.

End SweepFacts.

Lemma batch_count_ceiling (n : nat) :
  (n <= 10 * batch_count n < n + 10)%nat.
Proof.
  unfold batch_count.
  pose proof (Nat.div_mod_eq (n + 9) 10) as Hdm.
  pose proof (Nat.mod_upper_bound (n + 9) 10 ltac:(lia)) as Hub.
  lia.
Qed.

Lemma recorded_ids (probe : MCPServer -> M RWorld HealthCheckResult)
    (servers : list MCPServer) (results : list HealthCheckResult) :
  Forall2 (recorded probe) servers results ->
  map serverId results = map id servers.
Proof.
  induction 1 as [|s r servers results (wi & _ & Hid & _) _ IH]; simpl;
    [reflexivity |].
  rewrite Hid, IH. reflexivity.
Qed.

(** C5. For a registry of N servers the sweep runs the probes in batches:
    the ceiling of N/10 batches, one after the other, each of at least one
    and at most ten probes started together.  It settles with one result
    per server, in the order of the registry, each being what the probe
    reported for that server or, when the probe rejected, the offline
    result carrying the error's message.  With a store that answers, the
    summary kept under [health:summary] has [totalServers = N] and its
    online, degraded and offline counts add up to N. *)
Theorem health_sweep_batches_and_summary
    (probe : MCPServer -> M RWorld HealthCheckResult) (w : RWorld) :
  sound_probe probe ->
  exists reg batches,
    (getRegistry w).1 = Ok reg /\
    (sweep_batches probe (servers reg) (getRegistry w).2).1 = Ok batches /\
    length batches = batch_count (length (servers reg)) /\
    (length (servers reg) <= 10 * length batches < length (servers reg) + 10)%nat /\
    Forall (fun b => (1 <= length b <= 10)%nat) batches /\
    (checkAllServersHealth_with probe w).1 = Ok (concat batches) /\
    Forall2 (recorded probe) (servers reg) (concat batches) /\
    length (concat batches) = length (servers reg) /\
    map serverId (concat batches) = map id (servers reg) /\
    ((forall n, kv_faults w n = false) ->
     exists summary e,
       kv (checkAllServersHealth_with probe w).2 !! "health:summary" =
         Some {| kv_value := VHealthSummary summary; kv_expires := e |} /\
       sum_totalServers summary = length (servers reg) /\
       (sum_onlineServers summary + sum_degradedServers summary
        + sum_offlineServers summary)%nat = sum_totalServers summary).
Proof.
  intros Hsound.
  destruct (getRegistry_total w) as [reg Hreg].
  pose proof (same_faults_getRegistry w) as Hf0.
  destruct (getRegistry w) as [r0 w0] eqn:Hget. simpl in Hreg, Hf0. subst r0.
  destruct (sweep_loop_spec probe Hsound (servers reg) (length (servers reg)) 0 w0)
    as (batches & Hrun & Hlen & Hsz & Hrec & Hf1); [lia |].
  rewrite Nat.sub_0_r in Hlen.
  change (skipn 0 (servers reg)) with (servers reg) in Hrec.
  exists reg, batches. simpl.
  split; [reflexivity |]. split; [exact Hrun |]. split; [exact Hlen |].
  split; [rewrite Hlen; apply batch_count_ceiling |].
  split; [exact Hsz |].
  assert (Hall : checkAllServersHealth_with probe w =
                 (Ok (concat batches),
                  (storeHealthCheckResults (concat batches)
                     (sweep_batches probe (servers reg) w0).2).2)).
  { unfold checkAllServersHealth_with, try_catch, bind. rewrite Hget.
    unfold sweep_batches in *.
    destruct (sweep_loop probe (length (servers reg)) 0 (servers reg) w0) as [bs w1].
    simpl in Hrun. subst bs. simpl.
    pose proof (storeHealthCheckResults_total (concat batches) w1) as Hst.
    destruct (storeHealthCheckResults (concat batches) w1) as [u w2].
    simpl in Hst. subst u. reflexivity. }
  rewrite Hall. simpl.
  split; [reflexivity |]. split; [exact Hrec |].
  split; [symmetry; eapply Forall2_length; exact Hrec |].
  split; [apply (recorded_ids probe); exact Hrec |].
  intros Hq.
  unfold sweep_batches.
  set (w1 := (sweep_loop probe (length (servers reg)) 0 (servers reg) w0).2) in *.
  assert (Hq1 : forall n, kv_faults w1 n = false).
  { intros n. unfold same_faults in Hf0, Hf1. rewrite Hf1, Hf0. apply Hq. }
  eexists _, _. split; [apply storeHealthCheckResults_summary; exact Hq1 |].
  split.
  - simpl. symmetry. eapply Forall2_length. exact Hrec.
  - apply make_summary_counts.
Qed.

(** The worker's own probe is sound, so the statement above is about
    [checkAllServersHealth]. *)
Lemma checkServerHealth_sound : sound_probe checkServerHealth.
Proof.
  split.
  - intros server w.
    pose proof (checkServerHealth_run server w) as Hrun. cbv zeta in Hrun.
    destruct (probe_verdict _) as [[st reason] el]. rewrite Hrun. reflexivity.
  - intros server w r.
    pose proof (checkServerHealth_run server w) as Hrun. cbv zeta in Hrun.
    destruct (probe_verdict _) as [[st reason] el]. rewrite Hrun. simpl.
    intros H. injection H as <-. reflexivity.
Qed.

Lemma health_sweep_witness :
  map (fun r => (serverId r, status r))
      (match (checkAllServersHealth
                (registry_world [example_server; unverified_server])).1 with
       | Ok results => results
       | Throw _ => []
       end)
  = [("a", Online); ("b", Online)].
Proof.
  destruct (health_sweep_batches_and_summary checkServerHealth
              (registry_world [example_server; unverified_server])
              checkServerHealth_sound)
    as (reg & batches & Hreg & Hrun & _ & _ & _ & Hall & _).
  unfold checkAllServersHealth. rewrite Hall.
  vm_compute in Hreg. injection Hreg as <-.
  vm_compute in Hrun. injection Hrun as <-. reflexivity.
Defined.

(** A probe that rejects for every server: the sweep still settles, with
    the offline record carrying the error's message. *)
Example sweep_with_failing_probe :
  (checkAllServersHealth_with failing_probe (quiet_world Registry)).1
  = Ok [ {| serverId := "example-mcp"; status := Offline; responseTime := None;
            error := Some "probe crashed"; timestamp := 0 |} ].
Proof. vm_compute. reflexivity. Qed.

(** Twenty-five servers are probed in three batches of ten, ten and five. *)
Example sweep_of_25_servers :
  let servers := repeat example_server 25 in
  exists batches w',
    sweep_batches checkServerHealth servers (registry_world servers) = (Ok batches, w')
    /\ map (@length _) batches = [10; 10; 5]%nat.
Proof. eexists _, _. split; vm_compute; reflexivity. Qed.

(** ** C6: searching the servers *)

Lemma filter_filter {A} (p q : A -> bool) (l : list A) :
  List.filter p (List.filter q l) = List.filter (fun x => q x && p x) l.
Proof.
  induction l as [|x l IH]; simpl; [reflexivity |].
  destruct (q x); simpl; [destruct (p x) |]; rewrite ?IH; reflexivity.
Qed.

Lemma filter_true {A} (l : list A) : List.filter (fun _ => true) l = l.
Proof. induction l as [|x l IH]; simpl; [| rewrite IH]; reflexivity. Qed.

(** [searchServers] returns, in snapshot order, exactly the records that
    satisfy every given filter; the verified filter is an exact match. *)
Lemma searchServers_spec (query : option string) (tags : option (list string))
    (verified_filter : option bool) (w : RWorld) :
  exists reg,
    (getRegistry w).1 = Ok reg /\
    (searchServers query tags verified_filter w).1 =
    Ok (List.filter (accepts query tags verified_filter) (servers reg)).
Proof.
  destruct (getRegistry_total w) as [reg Hreg]. exists reg. split; [exact Hreg |].
  unfold searchServers, try_catch, bind.
  destruct (getRegistry w) as [r0 w0]. simpl in Hreg. subst r0. simpl. f_equal.
  unfold accepts.
  destruct query as [q|]; [destruct (Js.truthy q) |];
    (destruct tags as [t|]; [destruct (0 <? length t)%nat |]);
    destruct verified_filter as [v|];
    rewrite ?filter_filter; try reflexivity;
    try (symmetry; apply filter_true);
    apply filter_ext; intros s; rewrite ?andb_true_r, ?andb_assoc; reflexivity.
Qed.

(** With no filter the whole snapshot is returned. *)
Lemma searchServers_no_filter (w : RWorld) :
  exists reg,
    (getRegistry w).1 = Ok reg /\
    (searchServers None None None w).1 = Ok (servers reg).
Proof.
  destruct (searchServers_spec None None None w) as (reg & Hreg & Hs).
  exists reg. split; [exact Hreg |]. rewrite Hs. f_equal. apply filter_true.
Qed.

(** The router's list: the same filters, except that the verified filter is
    applied only for [verified=true]; the page is a slice of the matches and
    [hasMore] compares [offset + limit] with the number of matches. *)
Lemma list_servers_spec (ctx : RequestContext) (headers : Headers) (w : RWorld) :
  let get := searchParams_get (ctx_searchParams ctx) in
  let query := js_or (get "q") (Some "") in
  let tags := match get "tags" with Some t => Some (split "," t) | None => None end in
  let verified_filter :=
    match get "verified" with
    | Some v => if String.eqb v "true" then Some true else None
    | None => None
    end in
  let limit := parseInt (match js_or (get "limit") (Some "20") with
                         | Some s => s | None => "20" end) in
  let offset := parseInt (match js_or (get "offset") (Some "0") with
                          | Some s => s | None => "0" end) in
  exists reg hdrs ts,
    (getRegistry w).1 = Ok reg /\
    let matched := List.filter (accepts query tags verified_filter) (servers reg) in
    (list_servers ctx headers w).1 =
    Ok {| http_status := 200; http_statusText := None; http_headers := hdrs;
          http_body :=
            SuccessEnvelope
              (ServersPage (js_slice matched offset (num_add offset limit))
                           (length matched) limit offset
                           (num_lt (num_add offset limit)
                                   (Some (Z.of_nat (length matched)))))
              ts |}.
Proof.
  intros get query tags verified_filter limit offset.
  destruct (getRegistry_total w) as [reg Hreg]. exists reg.
  unfold list_servers, bind, createSuccessResponse, Date_now.
  destruct (getRegistry w) as [r0 w0]. simpl in Hreg. subst r0. cbn [fst snd ret].
  eexists _, _. split; [reflexivity |].
  cbv zeta. fold get.
  assert (Hm :
    (let servers := servers reg in
     let servers :=
       if Js.truthy (match js_or (get "q") (Some "") with Some q => q | None => "" end)
       then List.filter (matches_query (Js.toLowerCase
              (match js_or (get "q") (Some "") with Some q => q | None => "" end))) servers
       else servers in
     let servers :=
       if (0 <? length (match get "tags" with Some t => split "," t | None => [] end))%nat
       then List.filter (has_any_tag
              (match get "tags" with Some t => split "," t | None => [] end)) servers
       else servers in
     if match get "verified" with Some v => String.eqb v "true" | None => false end
     then List.filter (fun server => verified server) servers
     else servers)
    = List.filter (accepts query tags verified_filter) (servers reg)).
  { subst query tags verified_filter. unfold accepts. cbv zeta.
    destruct (js_or (get "q") (Some "")) as [q|] eqn:Hq.
    2:{ unfold js_or in Hq. destruct (get "q") as [s|]; [destruct (Js.truthy s) |];
        discriminate. }
    destruct (get "tags") as [t|]; destruct (get "verified") as [v|];
      try destruct (String.eqb v "true");
      destruct (Js.truthy q); try destruct (0 <? length (split "," t))%nat;
      simpl; rewrite ?filter_filter; try reflexivity;
      try (symmetry; apply filter_true);
      apply filter_ext; intros s; rewrite ?andb_true_r, ?andb_assoc;
      try reflexivity; destruct (verified s); rewrite ?andb_true_r, ?andb_false_r;
      reflexivity. }
  cbv zeta in Hm. rewrite Hm. reflexivity.
Qed.

(** C6 at the input on which the router departs from it.  The registry
    lists a verified and an unverified server.  GET /api/servers with
    verified=false returns both of them, whereas an exact match on the
    verified field, which is what [searchServers] computes for the same
    filter, returns the unverified one only. *)
Theorem servers_endpoint_ignores_verified_false :
  let ctx := {| ctx_ip := Some "203.0.113.7";
                ctx_searchParams := [("verified", "false")];
                ctx_json := ReqInvalid |} in
  let w := registry_world [example_server; unverified_server] in
  (handleServersEndpoint ctx ["servers"] "GET" [] w).1 =
    Ok {| http_status := 200; http_statusText := None;
          http_headers := [("Content-Type", "application/json")];
          http_body :=
            SuccessEnvelope
              (ServersPage [example_server; unverified_server] 2 (Some 20) (Some 0)
                           false)
              5 |} /\
  (searchServers None None (Some false) w).1 = Ok [unverified_server].
Proof. split; vm_compute; reflexivity. Qed.

(** ** The proxy gateway *)

Section Returns.
Context {W : Type}.

Lemma returns_ret {A} (P : A -> Prop) (a : A) : P a -> returns P (ret (W := W) a).
Proof. intros H w r w' Heq. injection Heq as <- _. exact H. Qed.

Lemma returns_throw {A} (P : A -> Prop) e : returns P (throw (W := W) (A := A) e).
Proof. intros w r w' Heq. discriminate. Qed.

Lemma returns_bind {A B} (P : B -> Prop) (m : M W A) (k : A -> M W B) :
  (forall a, returns P (k a)) -> returns P (bind m k).
Proof.
  intros Hk w r w' Heq. unfold bind in Heq.
  destruct (m w) as [[a|e] w1]; [| discriminate].
  exact (Hk a w1 r w' Heq).
Qed.

Lemma returns_try_catch {A} (P : A -> Prop) (m : M W A) (h : Thrown -> M W A) :
  returns P m -> (forall e, returns P (h e)) -> returns P (try_catch m h).
Proof.
  intros Hm Hh w r w' Heq. unfold try_catch in Heq.
  destruct (m w) as [[a|e] w1] eqn:Hrun.
  - injection Heq as <- <-. exact (Hm w a w1 Hrun).
  - exact (Hh e w1 r w' Heq).
Qed.

End Returns.

Lemma outbound_kept_refl {T} (w : World T) : outbound_kept w w.
Proof. intros o H. exact H. Qed.

Lemma outbound_kept_trans {T} (w1 w2 w3 : World T) :
  outbound_kept w1 w2 -> outbound_kept w2 w3 -> outbound_kept w1 w3.
Proof. intros H1 H2 o H. apply H2, H1, H. Qed.

Lemma kv_only_outbound_kept {T} (w w' : World T) : kv_only w w' -> outbound_kept w w'.
Proof. intros (_ & _ & H & _) o Ho. rewrite H. exact Ho. Qed.

#[local] Hint Resolve outbound_kept_refl outbound_kept_trans : frame.

Lemma store_only_logProxyRequest (logEntry : ProxyLogEntry) :
  preserves kv_only (logProxyRequest logEntry).
Proof.
  unfold logProxyRequest. frame_step; [| intros _; frame_step].
  frame_step; [apply store_only_Date_now |]. intros t.
  frame_step; [intros w; apply kv_only_refl |]. intros suffix.
  frame_step; [apply store_only_KV_put |]. intros _.
  frame_step; [apply store_only_KV_get |]. intros existing.
  apply store_only_KV_put.
Qed.

Lemma logProxyRequest_total (logEntry : ProxyLogEntry) (w : RWorld) :
  (logProxyRequest logEntry w).1 = Ok tt.
Proof.
  unfold logProxyRequest, try_catch.
  match goal with
  | |- context [match ?m w with _ => _ end] => destruct (m w) as [[[]|e] w']
  end; reflexivity.
Qed.

(** The registry lookup and the limiter forward nothing. *)
Lemma no_new_forward_fetchRegistry : preserves no_new_forward fetchRegistryFromGitHub.
Proof.
  unfold fetchRegistryFromGitHub.
  frame_step.
  - intros w. unfold fetch, no_new_forward.
    destruct (net w _ _); simpl; rewrite List.filter_app; simpl;
      rewrite app_nil_r; reflexivity.
  - intros r. destruct (negb _); [frame_step |].
    destruct (resp_json r) as [| | d]; try solve [frame_step].
    destruct (invalid_registry_format d); [frame_step |].
    destruct (doc_version d); [destruct (doc_servers d) |]; frame_step.
Qed.

Lemma no_new_forward_of_store_only {T A} (m : M (World T) A) :
  preserves kv_only m -> preserves no_new_forward m.
Proof. apply preserves_weaken. apply kv_only_no_new_forward. Qed.

Lemma no_new_forward_getRegistry : preserves no_new_forward getRegistry.
Proof.
  unfold getRegistry. frame_step.
  - frame_step; [apply no_new_forward_of_store_only, store_only_getCachedData |].
    intros [r|]; [frame_step |].
    frame_step; [apply no_new_forward_fetchRegistry |].
    intros reg. frame_step; [| intros _; frame_step].
    apply no_new_forward_of_store_only, store_only_setCachedData.
  - intros _. frame_step; [intros w; reflexivity | intros t; frame_step].
Qed.

Lemma no_new_forward_getServer sid : preserves no_new_forward (getServer sid).
Proof.
  unfold getServer. frame_step; [| intros _; frame_step].
  frame_step; [apply no_new_forward_getRegistry | intros reg; frame_step].
Qed.

Lemma getServer_total sid (w : RWorld) : exists s, (getServer sid w).1 = Ok s.
Proof.
  unfold getServer, try_catch.
  match goal with
  | |- context [match ?m w with _ => _ end] => destruct (m w) as [[r|e] w']
  end; eexists; reflexivity.
Qed.

Section ProxyFacts.
Variable URL_new : string -> option string -> option URL.

(** Whatever the forwarded call gives, the inner [catch] logs and raises
    again. *)
Lemma forward_catch (logEntry : Z -> Z -> ProxyLogEntry) (msg : string) (start : Z)
    (w : RWorld) :
  ((let* endTime := Date_now in
    let* ts := Date_now in
    logProxyRequest (logEntry endTime ts) ;;
    throw (A := ProxyResponse) (newError msg)) w).1 = Throw (newError msg).
Proof.
  unfold bind, Date_now.
  pose proof (logProxyRequest_total (logEntry (now w) (now w)) w) as Hlog.
  destruct (logProxyRequest _ w) as [u w']. simpl in Hlog. subst u. reflexivity.
Qed.

Lemma forward_rejects (sid : string) (target : URL) (method : string)
    (proxyHeaders : Headers) (proxyBody : option string) (start : Z) (w : RWorld) :
  let req := ProxyForward {| req_url := href target;
                             req_method := Js.toUpperCase method;
                             req_headers := proxyHeaders;
                             req_body := proxyBody |} in
  let answer := net w (length (outbound w)) req in
  (PROXY_TIMEOUT <= outcome_elapsed answer ->
   (forward sid target method proxyHeaders proxyBody start w).1
   = Throw (newError "Request timeout")) /\
  (forall e elapsed,
     answer = NetFail e elapsed -> elapsed < PROXY_TIMEOUT ->
     (forward sid target method proxyHeaders proxyBody start w).1
     = Throw (newError (forward_error_message e))).
Proof.
  intros req answer. split.
  - intros Hto. unfold forward, try_catch. unfold bind at 1.
    unfold fetch_with_timeout. fold req. fold answer.
    destruct (Z.leb_spec PROXY_TIMEOUT (outcome_elapsed answer)); [| lia].
    unfold bind, Date_now.
    match goal with
    | |- context [logProxyRequest ?entry ?w0] =>
        pose proof (logProxyRequest_total entry w0) as Hlog;
        destruct (logProxyRequest entry w0) as [u w']
    end.
    simpl in Hlog. subst u. reflexivity.
  - intros e elapsed Ha Hlt. unfold forward, try_catch. unfold bind at 1.
    unfold fetch_with_timeout. fold req. fold answer. rewrite Ha. simpl.
    destruct (Z.leb_spec PROXY_TIMEOUT elapsed); [lia |].
    unfold bind, Date_now.
    match goal with
    | |- context [logProxyRequest ?entry ?w0] =>
        pose proof (logProxyRequest_total entry w0) as Hlog;
        destruct (logProxyRequest entry w0) as [u w']
    end.
    simpl in Hlog. subst u. unfold forward_error_message.
    destruct e as [name message|]; reflexivity.
Qed.

(** A response that [forward] returns reports success. *)
Lemma forward_returns_success sid target method proxyHeaders proxyBody start :
  returns (fun r => success r = true)
          (forward sid target method proxyHeaders proxyBody start).
Proof.
  unfold forward. apply returns_try_catch.
  - apply returns_bind. intros response.
    apply returns_bind. intros endTime.
    apply returns_bind. intros responseBody.
    apply returns_bind. intros ts.
    apply returns_bind. intros _.
    apply returns_ret. reflexivity.
  - intros e. apply returns_bind. intros endTime.
    apply returns_bind. intros ts.
    apply returns_bind. intros _. apply returns_throw.
Qed.

Lemma proxyRequest_try_returns_success ip sid path method headers body :
  returns (fun r => success r = true)
          (proxyRequest_try URL_new ip sid path method headers body).
Proof.
  unfold proxyRequest_try.
  apply returns_bind. intros _.
  apply returns_bind. intros [server|]; [| apply returns_throw].
  apply returns_bind. intros _.
  apply returns_bind. intros rl.
  destruct (negb (allowed rl)); [apply returns_throw |].
  apply returns_bind. intros targetUrl.
  apply returns_bind. intros serverUrl.
  destruct (negb _); [apply returns_throw |].
  apply returns_bind. intros proxyBody.
  apply returns_bind. intros startTime.
  apply forward_returns_success.
Qed.

(** The forwarded call stays on record. *)
Lemma forward_outbound sid target method proxyHeaders proxyBody start (w : RWorld) :
  In (ProxyForward {| req_url := href target;
                      req_method := Js.toUpperCase method;
                      req_headers := proxyHeaders;
                      req_body := proxyBody |})
     (outbound (forward sid target method proxyHeaders proxyBody start w).2).
Proof.
  set (req := ProxyForward _).
  assert (Hlog : forall entry, preserves outbound_kept (logProxyRequest entry)).
  { intros entry. eapply preserves_weaken;
      [apply kv_only_outbound_kept | apply store_only_logProxyRequest]. }
  assert (Hnow : preserves outbound_kept (Date_now (T := Registry))).
  { intros w0. apply outbound_kept_refl. }
  assert (Hfetch : In req (outbound (fetch_with_timeout PROXY_TIMEOUT req w).2)).
  { unfold fetch_with_timeout. destruct (_ <=? _); [| destruct (net w _ _)];
      simpl; apply in_or_app; right; left; reflexivity. }
  assert (Hkept : outbound_kept (fetch_with_timeout PROXY_TIMEOUT req w).2
                    (forward sid target method proxyHeaders proxyBody start w).2).
  { unfold forward. fold req.
    apply (try_catch_bind_kept outbound_kept); eauto with frame.
    - intros response. frame_step; [exact Hnow |]. intros endTime.
      frame_step.
      + unfold response_text. destruct (resp_text response); frame_step.
      + intros responseBody. frame_step; [exact Hnow |]. intros ts.
        frame_step; [apply Hlog | intros _; frame_step].
    - intros e. frame_step; [exact Hnow |]. intros endTime.
      frame_step; [exact Hnow |]. intros ts.
      frame_step; [apply Hlog | intros _; frame_step]. }
  apply Hkept. exact Hfetch.
Qed.

End ProxyFacts.

Section ProxyStages.
Variable URL_new : string -> option string -> option URL.

(** The gateway past its first checks: from the origin test on. *)
Lemma proxyRequest_try_stage ip sid path method headers body
    (w w1 w2 : RWorld) server rl target base :
  Js.array_includes ALLOWED_METHODS (Js.toUpperCase method) = true ->
  getServer sid w = (Ok (Some server), w1) ->
  healthStatus server <> StOffline ->
  checkRateLimit ip w1 = (Ok rl, w2) ->
  allowed rl = true ->
  URL_new path (Some (url server)) = Some target ->
  URL_new (url server) None = Some base ->
  proxyRequest_try URL_new ip sid path method headers body w =
  if negb (String.eqb (origin target) (origin base)) then (Throw origin_error, w2)
  else match prepareProxyBody body method with
       | inl tooLarge => (Throw tooLarge, w2)
       | inr proxyBody =>
           forward sid target method (prepareProxyHeaders headers server) proxyBody
                   (now w2) w2
       end.
Proof.
  intros Hm Hs Hoff Hrl Hal Ht Hb.
  unfold proxyRequest_try. rewrite Hm. cbn [negb].
  unfold bind at 1. cbn [ret]. unfold bind at 1. rewrite Hs.
  assert (Hhealth :
    (match healthStatus server with
     | StOffline => throw (newError ("Server " ++ sid ++ " is currently offline"))
     | _ => ret tt
     end) w1 = (Ok tt, w1)).
  { destruct (healthStatus server); try reflexivity. contradiction. }
  unfold bind at 1. rewrite Hhealth.
  unfold bind at 1. rewrite Hrl, Hal. cbn [negb].
  unfold new_URL. rewrite Ht, Hb.
  unfold bind at 1. cbn [ret]. unfold bind at 1. cbn [ret].
  destruct (negb (String.eqb (origin target) (origin base))); [reflexivity |].
  unfold bind at 1.
  destruct (prepareProxyBody body method) as [tooLarge | proxyBody]; [reflexivity |].
  cbn [ret]. unfold bind at 1. unfold Date_now. reflexivity.
Qed.

(** The early exits. *)
Lemma proxyRequest_try_method ip sid path method headers body (w : RWorld) :
  Js.array_includes ALLOWED_METHODS (Js.toUpperCase method) = false ->
  proxyRequest_try URL_new ip sid path method headers body w =
  (Throw (newError ("Method " ++ method ++ " not allowed")), w).
Proof. intros Hm. unfold proxyRequest_try. rewrite Hm. reflexivity. Qed.

Lemma proxyRequest_try_unknown ip sid path method headers body (w w1 : RWorld) :
  Js.array_includes ALLOWED_METHODS (Js.toUpperCase method) = true ->
  getServer sid w = (Ok None, w1) ->
  proxyRequest_try URL_new ip sid path method headers body w =
  (Throw (newError ("Server " ++ sid ++ " not found")), w1).
Proof.
  intros Hm Hs. unfold proxyRequest_try. rewrite Hm. cbn [negb].
  unfold bind at 1. cbn [ret]. unfold bind at 1. rewrite Hs. reflexivity.
Qed.

Lemma proxyRequest_try_offline ip sid path method headers body (w w1 : RWorld) server :
  Js.array_includes ALLOWED_METHODS (Js.toUpperCase method) = true ->
  getServer sid w = (Ok (Some server), w1) ->
  healthStatus server = StOffline ->
  proxyRequest_try URL_new ip sid path method headers body w =
  (Throw (newError ("Server " ++ sid ++ " is currently offline")), w1).
Proof.
  intros Hm Hs Hoff. unfold proxyRequest_try. rewrite Hm. cbn [negb].
  unfold bind at 1. cbn [ret]. unfold bind at 1. rewrite Hs.
  unfold bind at 1. rewrite Hoff. reflexivity.
Qed.

Lemma proxyRequest_try_limited ip sid path method headers body (w w1 w2 : RWorld)
    server rl :
  Js.array_includes ALLOWED_METHODS (Js.toUpperCase method) = true ->
  getServer sid w = (Ok (Some server), w1) ->
  healthStatus server <> StOffline ->
  checkRateLimit ip w1 = (Ok rl, w2) ->
  allowed rl = false ->
  proxyRequest_try URL_new ip sid path method headers body w =
  (Throw (newError "Rate limit exceeded"), w2).
Proof.
  intros Hm Hs Hoff Hrl Hal. unfold proxyRequest_try. rewrite Hm. cbn [negb].
  unfold bind at 1. cbn [ret]. unfold bind at 1. rewrite Hs.
  assert (Hhealth :
    (match healthStatus server with
     | StOffline => throw (newError ("Server " ++ sid ++ " is currently offline"))
     | _ => ret tt
     end) w1 = (Ok tt, w1)).
  { destruct (healthStatus server); try reflexivity. contradiction. }
  unfold bind at 1. rewrite Hhealth.
  unfold bind at 1. rewrite Hrl, Hal. reflexivity.
Qed.

(** What every run of [proxyRequest] amounts to. *)
Lemma proxyRequest_catch ip sid path method headers body (w : RWorld) :
  proxyRequest URL_new ip sid path method headers body w =
  match proxyRequest_try URL_new ip sid path method headers body w with
  | (Ok r, w') => (Ok r, w')
  | (Throw e, w') => (Ok (proxy_failure e), w')
  end.
Proof. reflexivity. Qed.

End ProxyStages.

(** ** C1: the same-origin rule *)

(** C1. Let the server be registered and let the requested path resolve
    against its url.  If the origin of the resolved URL differs from the
    origin of the server's url, [proxyRequest] answers with
    [success = false] and forwards nothing; when the earlier checks pass the
    error is the origin error itself.  If the origins are equal and the
    earlier checks pass, the origin error is not raised: the run goes on to
    the body check and, the body being acceptable, forwards the call to the
    resolved URL. *)
Theorem proxy_rejects_foreign_origin
    (URL_new : string -> option string -> option URL)
    (ip : option string) (sid path method : string) (headers : Headers)
    (body : option JsBody) (w w1 : RWorld) (server : MCPServer) (target base : URL) :
  getServer sid w = (Ok (Some server), w1) ->
  URL_new path (Some (url server)) = Some target ->
  URL_new (url server) None = Some base ->
  let out := proxyRequest URL_new ip sid path method headers body w in
  (origin target <> origin base ->
   (exists resp, out.1 = Ok resp /\ success resp = false) /\
   no_new_forward w out.2 /\
   (Js.array_includes ALLOWED_METHODS (Js.toUpperCase method) = true ->
    healthStatus server <> StOffline ->
    forall rl w2, checkRateLimit ip w1 = (Ok rl, w2) -> allowed rl = true ->
    out.1 = Ok (proxy_failure origin_error))) /\
  (origin target = origin base ->
   Js.array_includes ALLOWED_METHODS (Js.toUpperCase method) = true ->
   healthStatus server <> StOffline ->
   forall rl w2, checkRateLimit ip w1 = (Ok rl, w2) -> allowed rl = true ->
   match prepareProxyBody body method with
   | inl tooLarge => out.1 = Ok (proxy_failure tooLarge)
   | inr proxyBody =>
       In (forwarded_request server target method headers proxyBody) (outbound out.2)
   end).
Proof.
  intros Hs Ht Hb out. subst out. split.
  - intros Hne.
    assert (Hneq : String.eqb (origin target) (origin base) = false)
      by (apply String.eqb_neq; exact Hne).
    assert (Hstage :
      Js.array_includes ALLOWED_METHODS (Js.toUpperCase method) = true ->
      healthStatus server <> StOffline ->
      forall rl w2, checkRateLimit ip w1 = (Ok rl, w2) -> allowed rl = true ->
      proxyRequest URL_new ip sid path method headers body w
      = (Ok (proxy_failure origin_error), w2)).
    { intros Hm Hoff rl w2 Hrl Hal. rewrite proxyRequest_catch.
      rewrite (proxyRequest_try_stage URL_new ip sid path method headers body
                 w w1 w2 server rl target base Hm Hs Hoff Hrl Hal Ht Hb).
      rewrite Hneq. reflexivity. }
    assert (Hw1 : no_new_forward w w1).
    { pose proof (no_new_forward_getServer sid w) as H. rewrite Hs in H. exact H. }
    assert (Hmain :
      exists e w', proxyRequest URL_new ip sid path method headers body w
                   = (Ok (proxy_failure e), w') /\ no_new_forward w w').
    { destruct (Js.array_includes ALLOWED_METHODS (Js.toUpperCase method)) eqn:Hm.
      2:{ eexists _, _. split; [| apply no_new_forward_refl].
          rewrite proxyRequest_catch.
          rewrite (proxyRequest_try_method URL_new ip sid path method headers body w Hm).
          reflexivity. }
      assert (Hoff : healthStatus server = StOffline \/ healthStatus server <> StOffline)
        by (destruct (healthStatus server); (left; reflexivity) || (right; discriminate)).
      destruct Hoff as [Hoff | Hoff].
      { eexists _, _. split; [| exact Hw1].
        rewrite proxyRequest_catch.
        rewrite (proxyRequest_try_offline URL_new ip sid path method headers body
                   w w1 server Hm Hs Hoff).
        reflexivity. }
      destruct (checkRateLimit_total w1 ip) as [rl Hrl].
      pose proof (store_only_checkRateLimit ip w1) as Hko.
      destruct (checkRateLimit ip w1) as [r0 w2] eqn:Hrun. simpl in Hrl, Hko.
      subst r0.
      assert (Hw2 : no_new_forward w w2)
        by (eapply no_new_forward_trans;
            [exact Hw1 | apply kv_only_no_new_forward; exact Hko]).
      destruct (allowed rl) eqn:Hal.
      - eexists _, _. split; [| exact Hw2].
        apply (Hstage eq_refl Hoff rl w2 eq_refl Hal).
      - eexists _, _. split; [| exact Hw2].
        rewrite proxyRequest_catch.
        rewrite (proxyRequest_try_limited URL_new ip sid path method headers body
                   w w1 w2 server rl Hm Hs Hoff Hrun Hal).
        reflexivity. }
    destruct Hmain as (e & w' & Hrun & Hfw). rewrite Hrun. simpl.
    split; [eexists; split; reflexivity |]. split; [exact Hfw |].
    intros Hm Hoff rl w2 Hrl Hal.
    rewrite (Hstage Hm Hoff rl w2 Hrl Hal) in Hrun.
    pose proof (f_equal fst Hrun) as H1. simpl in H1. symmetry. exact H1.
  - intros Heq Hm Hoff rl w2 Hrl Hal.
    rewrite proxyRequest_catch.
    rewrite (proxyRequest_try_stage URL_new ip sid path method headers body
               w w1 w2 server rl target base Hm Hs Hoff Hrl Hal Ht Hb).
    rewrite Heq, String.eqb_refl. cbn [negb].
    destruct (prepareProxyBody body method) as [tooLarge | proxyBody];
      [reflexivity |].
    pose proof (forward_outbound sid target method (prepareProxyHeaders headers server)
                  proxyBody (now w2) w2) as Hin.
    unfold forwarded_request.
    destruct (forward sid target method _ proxyBody (now w2) w2) as [[r|e] w3];
      exact Hin.
Qed.

Lemma proxy_rejects_foreign_origin_witness :
  (proxyRequest example_URL_new (Some "203.0.113.7") "a" "https://evil.example/steal"
     "GET" [] None (registry_world [example_server])).1
  = Ok (proxy_failure origin_error).
Proof.
  set (w := registry_world [example_server]).
  assert (Hs : getServer "a" w = (Ok (Some example_server), (getServer "a" w).2))
    by (vm_compute; reflexivity).
  destruct (proxy_rejects_foreign_origin example_URL_new (Some "203.0.113.7") "a"
              "https://evil.example/steal" "GET" [] None w (getServer "a" w).2
              example_server
              {| href := "https://evil.example/steal"; origin := "https://evil.example" |}
              {| href := "https://a.example/"; origin := "https://a.example" |}
              Hs eq_refl eq_refl) as [Hdiff _].
  destruct Hdiff as (_ & _ & H); [discriminate |].
  eapply H; [reflexivity | discriminate | | ].
  - vm_compute. reflexivity.
  - reflexivity.
Defined.

(** The end-to-end scenario: /ping on server A is forwarded to
    https://a.example/ping and the answer is handed back. *)
Example proxy_forwards_ping :
  let out := proxyRequest example_URL_new (Some "203.0.113.7") "a" "/ping" "GET" [] None
               (registry_world [example_server]) in
  (exists resp, out.1 = Ok resp /\ success resp = true /\ proxy_status resp = 200) /\
  outbound out.2 =
  [RegistryFetch GITHUB_REGISTRY_URL;
   ProxyForward {| req_url := "https://a.example/ping"; req_method := "GET";
                   req_headers := [("User-Agent", "MCP-Hub-Proxy/1.0");
                                   ("Accept", "application/json");
                                   ("Content-Type", "application/json")];
                   req_body := None |}].
Proof. split; [eexists; split; [| split] |]; vm_compute; reflexivity. Qed.

(** ** C10: the gateway's failures *)

Lemma prepareProxyBody_error (body : option JsBody) (method : string) e :
  prepareProxyBody body method = inl e -> e = newError "Request body too large".
Proof.
  unfold prepareProxyBody. destruct body as [b|]; [| discriminate].
  destruct (_ && _); [| discriminate].
  destruct (_ <? _); [| discriminate].
  intros H. injection H as <-. reflexivity.
Qed.

(** C10. [proxyRequest] always settles with a response and never raises;
    a response with [success = false] has status 500.  Each way of failing
    is reported by the same failure response carrying its message: a method
    outside the allow-list, an unknown server, a server marked offline, a
    rejection by the limiter, a foreign origin, a body over the ceiling, the
    30 s timer firing, a failure of the network.  The proxy endpoint turns
    every such response into an HTTP answer with status 500, so the caller
    gets 500 for an unknown server and for the gateway's own limiter
    rejection. *)
Theorem proxyRequest_total_uniform_failures
    (URL_new : string -> option string -> option URL)
    (ip : option string) (sid path method : string) (headers : Headers)
    (body : option JsBody) (w : RWorld) :
  let out := proxyRequest URL_new ip sid path method headers body w in
  let fails_with (message : string) := out.1 = Ok (proxy_failure (newError message)) in
  (exists resp,
     out.1 = Ok resp /\
     (success resp = false ->
      proxy_status resp = 500 /\ proxy_statusText resp = "Internal Server Error")) /\
  (forall e w',
     proxyRequest_try URL_new ip sid path method headers body w = (Throw e, w') ->
     out.1 = Ok (proxy_failure e)) /\
  (Js.array_includes ALLOWED_METHODS (Js.toUpperCase method) = false ->
   fails_with ("Method " ++ method ++ " not allowed")) /\
  (Js.array_includes ALLOWED_METHODS (Js.toUpperCase method) = true ->
   (forall w1, getServer sid w = (Ok None, w1) ->
      fails_with ("Server " ++ sid ++ " not found")) /\
   (forall server w1,
      getServer sid w = (Ok (Some server), w1) ->
      (healthStatus server = StOffline ->
       fails_with ("Server " ++ sid ++ " is currently offline")) /\
      (healthStatus server <> StOffline ->
       forall rl w2,
         checkRateLimit ip w1 = (Ok rl, w2) ->
         (allowed rl = false -> fails_with "Rate limit exceeded") /\
         (allowed rl = true ->
          forall target base,
            URL_new path (Some (url server)) = Some target ->
            URL_new (url server) None = Some base ->
            (origin target <> origin base ->
             fails_with "Target URL must be within the server's domain") /\
            (origin target = origin base ->
             (forall e, prepareProxyBody body method = inl e ->
                fails_with "Request body too large") /\
             (forall proxyBody,
                prepareProxyBody body method = inr proxyBody ->
                let answer :=
                  net w2 (length (outbound w2))
                      (forwarded_request server target method headers proxyBody) in
                (PROXY_TIMEOUT <= outcome_elapsed answer ->
                 fails_with "Request timeout") /\
                (forall e elapsed,
                   answer = NetFail e elapsed -> elapsed < PROXY_TIMEOUT ->
                   fails_with (forward_error_message e)))))))) /\
  (forall (ctx : RequestContext) (rb : ProxyRequestBody) (hdrs : Headers) resp,
     ctx_ip ctx = ip ->
     ctx_json ctx = ReqObject rb ->
     pb_serverId rb = Some sid -> pb_path rb = Some path ->
     pb_method rb = Some method ->
     match pb_headers rb with Some h => h | None => [] end = headers ->
     pb_body rb = body ->
     Js.truthy sid = true -> Js.truthy path = true -> Js.truthy method = true ->
     Js.array_includes ALLOWED_METHODS (Js.toUpperCase method) = true ->
     out.1 = Ok resp -> success resp = false ->
     exists r,
       (handleProxyEndpoint URL_new ctx "POST" hdrs w).1 = Ok r /\
       http_status r = 500).
Proof.
  intros out fails_with. subst out fails_with. cbv beta.
  assert (Hcatch : forall e w',
    proxyRequest_try URL_new ip sid path method headers body w = (Throw e, w') ->
    (proxyRequest URL_new ip sid path method headers body w).1 = Ok (proxy_failure e)).
  { intros e w' H. rewrite proxyRequest_catch, H. reflexivity. }
  assert (Hshape : exists resp,
    (proxyRequest URL_new ip sid path method headers body w).1 = Ok resp /\
    (success resp = false ->
     proxy_status resp = 500 /\ proxy_statusText resp = "Internal Server Error")).
  { rewrite proxyRequest_catch.
    pose proof (proxyRequest_try_returns_success URL_new ip sid path method headers
                  body w) as Hret.
    destruct (proxyRequest_try URL_new ip sid path method headers body w)
      as [[r|e] w'].
    - exists r. split; [reflexivity |]. intros Hf.
      rewrite (Hret r w' eq_refl) in Hf. discriminate.
    - eexists. split; [reflexivity |]. intros _. split; reflexivity. }
  split; [exact Hshape |]. split; [exact Hcatch |].
  split; [| split].
  - intros Hm. eapply Hcatch. apply proxyRequest_try_method. exact Hm.
  - intros Hm. split.
    + intros w1 Hs. eapply Hcatch. apply proxyRequest_try_unknown; eassumption.
    + intros server w1 Hs. split.
      * intros Hoff. eapply Hcatch. eapply proxyRequest_try_offline; eassumption.
      * intros Hoff rl w2 Hrl. split.
        -- intros Hal. eapply Hcatch. eapply proxyRequest_try_limited; eassumption.
        -- intros Hal target base Ht Hb.
           pose proof (proxyRequest_try_stage URL_new ip sid path method headers body
                         w w1 w2 server rl target base Hm Hs Hoff Hrl Hal Ht Hb)
             as Hstage.
           split.
           ++ intros Hne. apply String.eqb_neq in Hne. rewrite Hne in Hstage.
              eapply Hcatch. exact Hstage.
           ++ intros Heq. rewrite Heq, String.eqb_refl in Hstage. cbn [negb] in Hstage.
              split.
              ** intros e He. rewrite He in Hstage.
                 rewrite (prepareProxyBody_error body method e He) in Hstage.
                 eapply Hcatch. exact Hstage.
              ** intros proxyBody Hpb answer. rewrite Hpb in Hstage.
                 destruct (forward_rejects sid target method
                             (prepareProxyHeaders headers server) proxyBody (now w2) w2)
                   as [Hto Hfail].
                 fold (forwarded_request server target method headers proxyBody)
                   in Hto, Hfail.
                 fold answer in Hto, Hfail.
                 split.
                 --- intros Hge. specialize (Hto Hge).
                     destruct (forward sid target method _ proxyBody (now w2) w2)
                       as [[r|e] w3] eqn:Hfw; simpl in Hto; [discriminate |].
                     injection Hto as ->. eapply Hcatch. exact Hstage.
                 --- intros e elapsed Ha Hlt. specialize (Hfail e elapsed Ha Hlt).
                     destruct (forward sid target method _ proxyBody (now w2) w2)
                       as [[r|e'] w3] eqn:Hfw; simpl in Hfail; [discriminate |].
                     injection Hfail as ->. eapply Hcatch. exact Hstage.
  - intros ctx rb hdrs resp Hip Hjson Hsid Hpath Hmeth Hh Hbody Tsid Tpath Tmeth Hm
           Hout Hfalse.
    destruct Hshape as (resp' & Hresp' & H500).
    rewrite Hout in Hresp'. injection Hresp' as <-.
    destruct (H500 Hfalse) as [Hstatus _].
    unfold handleProxyEndpoint. cbn [String.eqb Ascii.eqb Bool.eqb negb].
    unfold try_catch. rewrite Hjson, Hsid, Hpath, Hmeth, Tsid, Tpath, Tmeth, Hm.
    cbn [negb orb]. unfold bind at 1. rewrite Hip, Hh, Hbody.
    destruct (proxyRequest URL_new ip sid path method headers body w) as [r0 w'].
    simpl in Hout. subst r0. rewrite Hfalse.
    unfold createErrorResponse, bind, Date_now. cbn [ret fst].
    eexists. split; [reflexivity |]. exact Hstatus.
Qed.

Lemma proxyRequest_unknown_server_witness :
  exists r,
    (handleProxyEndpoint example_URL_new
       (proxy_call "203.0.113.7" "no-such-server" "/ping" "GET") "POST" []
       (registry_world [example_server])).1 = Ok r /\
    http_status r = 500.
Proof.
  pose proof (proxyRequest_total_uniform_failures example_URL_new (Some "203.0.113.7")
                "no-such-server" "/ping" "GET" [] None
                (registry_world [example_server])) as H.
  cbv zeta in H. destruct H as (_ & _ & _ & _ & H).
  eapply (H (proxy_call "203.0.113.7" "no-such-server" "/ping" "GET")); reflexivity.
Defined.

(** A client whose hundred admitted calls are still in the window: the
    gateway's own limiter check rejects, and the proxy endpoint answers 500
    with the limiter's message. *)
Example proxy_limiter_rejection_is_500 :
  let w := (check_sequence (Some "203.0.113.7") (repeat 0 100)
              (registry_world [example_server])).2 in
  exists ts hdrs,
    (handleProxyEndpoint example_URL_new
       (proxy_call "203.0.113.7" "a" "/ping" "GET") "POST" [] w).1
    = Ok {| http_status := 500; http_statusText := None; http_headers := hdrs;
            http_body := ErrorEnvelope "Rate limit exceeded" ts |}.
Proof. eexists _, _. vm_compute. reflexivity. Qed.
